(** * Yarn2 packager (lib/packagers/yarn2.js)

    A shallow embedding of the two transformations of the Yarn 2 packager:
    [rebaseLockfile], which rewrites relative file references of a lockfile,
    and the parsing stage of [getProdDependencies], which turns the
    line-delimited JSON listing of [yarn info --recursive --json] into a
    dependency graph.

    Strings are sequences of 8-bit code units.  JS objects used as maps are
    finite maps from property names to values. *)

From Stdlib Require Import String Ascii.
From stdpp Require Import gmap strings list pretty.

Local Open Scope string_scope.
Set Warnings "-register-all".

#[local] Arguments String.append !_ _ / : simpl nomatch.

(** ** Characters and strings *)

Module Chars.

Definition dquote : ascii := "034"%char.
Definition slash : ascii := "/"%char.
Definition backslash : ascii := "\"%char.
Definition at_sign : ascii := "@"%char.
Definition colon : ascii := ":"%char.
Definition comma : ascii := ","%char.
Definition dollar : ascii := "$"%char.
Definition LF : ascii := "010"%char.
Definition CR : ascii := "013"%char.

Definition not_at (c : ascii) : bool := negb (Ascii.eqb c at_sign).

(** [s] between double quotes. *)
Definition quoted (s : string) : string :=
  String dquote (s +:+ String dquote "").

End Chars.

Import Chars.

(** [s.startsWith(p)]: on success the rest of [s] after [p]. *)
Fixpoint strip_prefix (p s : string) : option string :=
  match p with
  | "" => Some s
  | String a p' =>
      match s with
      | "" => None
      | String b s' => if Ascii.eqb a b then strip_prefix p' s' else None
      end
  end.

(** [s.indexOf(pat)], returned as the text before the first occurrence of
    [pat] and the text after it. *)
Fixpoint find_first (pat s : string) : option (string * string) :=
  match strip_prefix pat s with
  | Some rest => Some ("", rest)
  | None =>
      match s with
      | "" => None
      | String c s' =>
          match find_first pat s' with
          | Some (before, after) => Some (String c before, after)
          | None => None
          end
      end
  end.

Fixpoint string_map (f : ascii -> ascii) (s : string) : string :=
  match s with
  | "" => ""
  | String c s' => String (f c) (string_map f s')
  end.

Fixpoint string_drop (n : nat) (s : string) : string :=
  match n, s with
  | S n', String _ s' => string_drop n' s'
  | _, _ => s
  end.

Fixpoint string_forall (p : ascii -> bool) (s : string) : bool :=
  match s with
  | "" => true
  | String c s' => p c && string_forall p s'
  end.

(** ** Regular expressions, as the backtracking matcher of JS runs them *)

Module Regex.

Inductive regex : Type :=
| Class (p : ascii -> bool)        (* one code unit of a class; a literal; the dot *)
| Seq (r1 r2 : regex)              (* r1 r2 *)
| Alt (r1 r2 : regex)              (* r1|r2, left alternative first *)
| Opt (r : regex)                  (* r?, greedy *)
| LazyStar (p : ascii -> bool)     (* c*? for a class c: shortest first *)
| Group (r : regex).               (* the capture group (r) *)

(** What a successful match reports: the matched text [match[0]], the
    capture [match[1]] ([None] is JS's undefined), and the input after the
    match. *)
Record MatchState : Type := mkMatch {
  matched : string;
  capture : option string;
  rest : string
}.

Definition Cont : Type := string -> option string -> string -> option MatchState.

(** [c*?]: the continuation is tried before one more code unit is taken. *)
Fixpoint lazy_star (p : ascii -> bool) (s acc : string)
    (k : string -> string -> option MatchState) : option MatchState :=
  match k acc s with
  | Some m => Some m
  | None =>
      match s with
      | "" => None
      | String c s' => if p c then lazy_star p s' (acc +:+ String c "") k else None
      end
  end.

(** [run r s cap k]: match [r] at the head of [s]; [k] receives the text
    [r] consumed, the capture so far and the remaining input, and a [None]
    from it makes the matcher backtrack. *)
Fixpoint run (r : regex) (s : string) (cap : option string) (k : Cont)
    : option MatchState :=
  match r with
  | Class p =>
      match s with
      | "" => None
      | String c s' => if p c then k (String c "") cap s' else None
      end
  | Seq r1 r2 =>
      run r1 s cap (fun m1 cap1 s1 =>
        run r2 s1 cap1 (fun m2 cap2 s2 => k (m1 +:+ m2) cap2 s2))
  | Alt r1 r2 =>
      match run r1 s cap k with
      | Some m => Some m
      | None => run r2 s cap k
      end
  | Opt r1 =>
      match run r1 s cap k with
      | Some m => Some m
      | None => k "" cap s
      end
  | LazyStar p => lazy_star p s "" (fun m s' => k m cap s')
  | Group r1 => run r1 s cap (fun m _ s' => k m (Some m) s')
  end.

Definition lit (c : ascii) : regex := Class (Ascii.eqb c).

Fixpoint lits (s : string) : regex :=
  match s with
  | "" => Opt (Class (fun _ => false))
  | String c "" => lit c
  | String c s' => Seq (lit c) (lits s')
  end.

(** [r] tried at the head of [s] only (one start position). *)
Definition match_here (r : regex) (s : string) : option MatchState :=
  run r s None (fun m cap s' => Some (mkMatch m cap s')).

(** The leftmost match of [r] in [s]: start positions in increasing order.
    [i] is the index of the head of [s] in the whole input; the result
    carries the index the match starts at. *)
Fixpoint search (r : regex) (s : string) (i : nat) : option (nat * MatchState) :=
  match match_here r s with
  | Some m => Some (i, m)
  | None =>
      match s with
      | "" => None
      | String _ s' => search r s' (S i)
      end
  end.

(** [re.exec(input)] for a regex with the [g] flag whose [lastIndex] is
    [lastIndex]: the match and the new [lastIndex], or [None] (JS's null,
    with [lastIndex] reset to 0). *)
Definition exec (r : regex) (input : string) (lastIndex : nat)
    : option MatchState * nat :=
  if Nat.ltb (String.length input) lastIndex then (None, 0)
  else
    match search r (string_drop lastIndex input) lastIndex with
    | Some (i, m) => (Some m, i + String.length (matched m))
    | None => (None, 0)
    end.

(** What a regex matches, apart from the order in which the matcher tries
    the alternatives: [matches r m cap cap'] when [r] can consume [m],
    taking the capture from [cap] to [cap']. *)
Inductive matches : regex -> string -> option string -> option string -> Prop :=
| M_class p c cap :
    p c = true -> matches (Class p) (String c "") cap cap
| M_seq r1 r2 m1 m2 cap cap1 cap2 :
    matches r1 m1 cap cap1 -> matches r2 m2 cap1 cap2 ->
    matches (Seq r1 r2) (m1 +:+ m2) cap cap2
| M_alt_l r1 r2 m cap cap' :
    matches r1 m cap cap' -> matches (Alt r1 r2) m cap cap'
| M_alt_r r1 r2 m cap cap' :
    matches r2 m cap cap' -> matches (Alt r1 r2) m cap cap'
| M_opt_some r m cap cap' :
    matches r m cap cap' -> matches (Opt r) m cap cap'
| M_opt_none r cap :
    matches (Opt r) "" cap cap
| M_star_nil p cap :
    matches (LazyStar p) "" cap cap
| M_star_snoc p m c cap :
    matches (LazyStar p) m cap cap -> p c = true ->
    matches (LazyStar p) (m +:+ String c "") cap cap
| M_group r m cap cap' :
    matches r m cap cap' -> matches (Group r) m cap (Some m).

End Regex.

Import Regex.

(** ** String.prototype.replace with a string pattern *)

(** GetSubstitution of ECMAScript for a match without capture groups:
    [$$] is a dollar, [$&] the matched text, [$`] the text before the match,
    [$'] the text after it; any other dollar stands for itself. *)
Fixpoint GetSubstitution (matched_text before after template : string) : string :=
  match template with
  | "" => ""
  | String c t =>
      if Ascii.eqb c dollar then
        match t with
        | String d t' =>
            if Ascii.eqb d dollar then
              String dollar (GetSubstitution matched_text before after t')
            else if Ascii.eqb d "&"%char then
              matched_text +:+ GetSubstitution matched_text before after t'
            else if Ascii.eqb d "`"%char then
              before +:+ GetSubstitution matched_text before after t'
            else if Ascii.eqb d "'"%char then
              after +:+ GetSubstitution matched_text before after t'
            else String c (GetSubstitution matched_text before after t)
        | "" => String c ""
        end
      else String c (GetSubstitution matched_text before after t)
  end.

(** [_.replace(s, pattern, replacement)] with a string [pattern]: lodash
    hands over to [s.replace(pattern, replacement)], which rewrites the
    first occurrence of [pattern] only. *)
Definition replace (s pattern replacement : string) : string :=
  match find_first pattern s with
  | None => s
  | Some (before, after) =>
      before +:+ GetSubstitution pattern before after replacement +:+ after
  end.

(** [_.replace(s, /\\/g, '/')]: every backslash becomes a slash. *)
Definition slashify (s : string) : string :=
  string_map (fun c => if Ascii.eqb c backslash then slash else c) s.

(** ** JS values and the lodash helpers the packager calls *)

Module Js.

(** The values [JSON.parse] produces, and [undefined].  A number is
    carried as the text JS prints for it ([1], [-2.5], [1e+21]), negative
    zero as [-0].  [JObj] lists the own properties of a plain object in the
    order JS enumerates them, one entry per name. *)
Inductive JsValue : Type :=
| JUndefined
| JNull
| JBool (b : bool)
| JNum (printed : string)
| JStr (s : string)
| JArr (elems : list JsValue)
| JObj (props : list (string * JsValue)).

(** How an evaluation ends: with a value, with a TypeError thrown, or, in
    this embedding only, with the fuel of a recursion used up. *)
Inductive Result (A : Type) : Type :=
| Normal (a : A)
| TypeError
| OutOfFuel.

Arguments Normal {A} a.
Arguments TypeError {A}.
Arguments OutOfFuel {A}.

Definition bind {A B : Type} (r : Result A) (f : A -> Result B) : Result B :=
  match r with
  | Normal a => f a
  | TypeError => TypeError
  | OutOfFuel => OutOfFuel
  end.

Notation "'let*' x ':=' r 'in' k" := (bind r (fun x => k))
  (at level 10, x name, r at level 100, k at level 200).

(** A left fold whose step can throw: the loop stops at the first throw. *)
Fixpoint foldM {A B : Type} (f : A -> B -> Result A) (acc : A) (l : list B)
    : Result A :=
  match l with
  | [] => Normal acc
  | x :: l' => let* acc' := f acc x in foldM f acc' l'
  end.

Fixpoint assoc (k : string) (props : list (string * JsValue)) : option JsValue :=
  match props with
  | [] => None
  | (k', v) :: props' => if String.eqb k k' then Some v else assoc k props'
  end.

(** [v[k]] and [v.k], for a name [k] that is neither an index nor [length]
    nor a name that a prototype defines: reading off undefined or null
    throws, a primitive or an array has no such property. *)
Definition getProp (v : JsValue) (k : string) : Result JsValue :=
  match v with
  | JUndefined | JNull => TypeError
  | JObj props => Normal (default JUndefined (assoc k props))
  | _ => Normal JUndefined
  end.

(** ToBoolean. *)
Definition truthy (v : JsValue) : bool :=
  match v with
  | JUndefined | JNull => false
  | JBool b => b
  | JNum printed => negb (String.eqb printed "0" || String.eqb printed "-0")
  | JStr s => negb (String.eqb s "")
  | JArr _ | JObj _ => true
  end.

(** [_.isEmpty]: null, booleans and numbers are empty; a string or an
    array is empty when its length is 0, an object when it has no own
    property. *)
Definition isEmpty (v : JsValue) : bool :=
  match v with
  | JUndefined | JNull | JBool _ | JNum _ => true
  | JStr s => String.eqb s ""
  | JArr l => match l with [] => true | _ => false end
  | JObj props => match props with [] => true | _ => false end
  end.

Fixpoint joinM (sep : string) (l : list (Result string)) : Result string :=
  match l with
  | [] => Normal ""
  | [r] => r
  | r :: l' =>
      let* s := r in
      let* t := joinM sep l' in
      Normal (s +:+ sep +:+ t)
  end.

(** ToString of ECMAScript, which turns a value into a property key.  An
    array prints its elements joined by commas, null and undefined elements
    as nothing.  A plain object prints as [[object Object]]; one with an
    own [toString] property, which is not callable, cannot be converted. *)
Fixpoint ToString (v : JsValue) : Result string :=
  match v with
  | JUndefined => Normal "undefined"
  | JNull => Normal "null"
  | JBool b => Normal (if b then "true" else "false")
  | JNum printed => Normal (if String.eqb printed "-0" then "0" else printed)
  | JStr s => Normal s
  | JArr l =>
      joinM "," ((fix each (l : list JsValue) : list (Result string) :=
                    match l with
                    | [] => []
                    | x :: l' =>
                        match x with
                        | JUndefined | JNull => Normal ""
                        | _ => ToString x
                        end :: each l'
                    end) l)
  | JObj props =>
      match assoc "toString" props with
      | Some _ => TypeError
      | None => Normal "[object Object]"
      end
  end.

(** lodash's [baseToString]: as ToString, but negative zero keeps its
    sign and the elements of an array are converted by [baseToString]
    itself, so that null prints as [null]. *)
Fixpoint baseToString (v : JsValue) : Result string :=
  match v with
  | JStr s => Normal s
  | JNum printed => Normal printed
  | JArr l =>
      joinM "," ((fix each (l : list JsValue) : list (Result string) :=
                    match l with
                    | [] => []
                    | x :: l' => baseToString x :: each l'
                    end) l)
  | _ => ToString v
  end.

(** lodash's [toString], applied by [_.split] and [_.startsWith] to their
    first argument: null and undefined print as the empty string. *)
Definition toString (v : JsValue) : Result string :=
  match v with
  | JUndefined | JNull => Normal ""
  | _ => baseToString v
  end.

(** [s.split(sep)] for a separator of one code unit. *)
Fixpoint split_on (sep : ascii) (s : string) : list string :=
  match s with
  | "" => [""]
  | String c s' =>
      if Ascii.eqb c sep then "" :: split_on sep s'
      else
        match split_on sep s' with
        | x :: l => String c x :: l
        | [] => [String c ""]
        end
  end.

(** [_.split(v, sep)]. *)
Definition split (v : JsValue) (sep : ascii) : Result (list string) :=
  let* s := toString v in Normal (split_on sep s).

(** [_.startsWith(v, target)]. *)
Definition startsWith (v : JsValue) (target : string) : Result bool :=
  let* s := toString v in
  Normal (match strip_prefix target s with Some _ => true | None => false end).

Fixpoint chars (s : string) : list JsValue :=
  match s with
  | "" => []
  | String c s' => JStr (String c "") :: chars s'
  end.

Definition MAX_SAFE_INTEGER : N := 9007199254740991.

(** The value of a text of decimal digits. *)
Fixpoint digits_value (acc : N) (s : string) : option N :=
  match s with
  | "" => Some acc
  | String c s' =>
      let n := N_of_ascii c in
      if (48 <=? n)%N && (n <=? 57)%N
      then digits_value (10 * acc + (n - 48))%N s'
      else None
  end.

(** lodash's [isLength] on a value: a number that is a whole number from
    0 to [MAX_SAFE_INTEGER].  JS prints such a number as its digits;
    negative zero, which passes the test as zero does, is the length 0. *)
Definition asLength (v : JsValue) : option N :=
  match v with
  | JNum (String c s) =>
      if String.eqb (String c s) "-0" then Some 0%N
      else
        match digits_value 0 (String c s) with
        | Some n => if (n <=? MAX_SAFE_INTEGER)%N then Some n else None
        | None => None
        end
  | _ => None
  end.

(** The values [_.reduce] and [_.forEach] visit, in order: the elements of
    an array, the code units of a string, the slots [0 .. length-1] of an
    object whose [length] is a valid length, the own property values of any
    other object; nothing for null, undefined, booleans and numbers. *)
Definition collectionElements (v : JsValue) : list JsValue :=
  match v with
  | JArr l => l
  | JStr s => chars s
  | JObj props =>
      match asLength (default JUndefined (assoc "length" props)) with
      | Some n =>
          map (fun i : nat => default JUndefined (assoc (pretty i) props))
              (seq 0 (N.to_nat n))
      | None => map snd props
      end
  | _ => []
  end.

(** Nesting depth of a value, the fuel a recursion over it needs. *)
Fixpoint depth (v : JsValue) : nat :=
  match v with
  | JArr l =>
      S ((fix each (l : list JsValue) : nat :=
            match l with
            | [] => 0
            | x :: l' => Nat.max (depth x) (each l')
            end) l)
  | JObj props =>
      S ((fix each (l : list (string * JsValue)) : nat :=
            match l with
            | [] => 0
            | (_, x) :: l' => Nat.max (depth x) (each l')
            end) props)
  | _ => 0
  end.

(** What reading a property off an object can give when the name is
    looked for along the prototype chain: a value of the listing (or
    undefined), or what a built-in prototype holds. *)
Inductive Looked : Type :=
| Data (v : JsValue)
| ObjectPrototype                        (* the object [Object.prototype] *)
| ObjectPrototypeMember (name : string)  (* the function [Object.prototype[name]] *)
| ArrayPrototypeMember (name : string).  (* [Array.prototype[name]], as the engine has it:
                                            its own member, else that of
                                            [Object.prototype], else undefined *)

Coercion Data : JsValue >-> Looked.

(** The names [Object.prototype] defines as methods; [__proto__], its one
    accessor, is dealt with apart. *)
Definition objectPrototypeNames : list string :=
  ["constructor"; "__defineGetter__"; "__defineSetter__"; "hasOwnProperty";
   "__lookupGetter__"; "__lookupSetter__"; "isPrototypeOf";
   "propertyIsEnumerable"; "toString"; "valueOf"; "toLocaleString"].

(** A name that no own property answers, read where the chain reaches
    [Object.prototype]: the getter of [__proto__] answers with the prototype
    of the object the read started from. *)
Definition inheritedFromObject (receiverPrototype : Looked) (key : string) : Looked :=
  if String.eqb key "__proto__" then receiverPrototype
  else if existsb (String.eqb key) objectPrototypeNames then ObjectPrototypeMember key
  else Data JUndefined.

(** The own properties of an array: its elements under their indices,
    written without leading zeros, and [length]. *)
Definition arrayOwn (l : list JsValue) (key : string) : option JsValue :=
  if String.eqb key "length" then Some (JNum (pretty (length l)))
  else
    match digits_value 0 key with
    | Some n => if String.eqb (pretty n) key then l !! N.to_nat n else None
    | None => None
    end.

End Js.

Import Js.

(** ** Yarn2.rebaseLockfile *)

Module Yarn2.

(** The dot of a regex without the [s] flag: anything but a line
    terminator. *)
Definition dot (c : ascii) : bool :=
  negb (Ascii.eqb c LF || Ascii.eqb c CR).

(** [/[^"/]@(?:file:)?((?:\.\/|\.\.\/).*?)[":,]/gm] *)
Definition fileVersionMatcher : regex :=
  Seq (Class (fun c => negb (Ascii.eqb c dquote || Ascii.eqb c slash)))
 (Seq (lit at_sign)
 (Seq (Opt (lits "file:"))
 (Seq (Group (Seq (Alt (lits "./") (lits "../")) (LazyStar dot)))
      (Class (fun c => Ascii.eqb c dquote || Ascii.eqb c colon || Ascii.eqb c comma))))).

Record Replacement : Type := mkReplacement {
  oldRef : string;
  newRef : string
}.

(** [match[1]] inside a template literal: an unset group prints as
    [undefined]. *)
Definition group1 (m : MatchState) : string :=
  match capture m with
  | Some g => g
  | None => "undefined"
  end.

(** The [while] loop of lines 115-120; [lastIndex] is the state the regex
    object carries from one [exec] to the next.  [None] when the fuel runs
    out before [exec] answers null. *)
Fixpoint collect (fuel : nat) (pathToPackageRoot lockfile : string)
    (lastIndex : nat) : option (list Replacement) :=
  match fuel with
  | O => None
  | S fuel' =>
      match exec fileVersionMatcher lockfile lastIndex with
      | (None, _) => Some []
      | (Some m, lastIndex') =>
          match collect fuel' pathToPackageRoot lockfile lastIndex' with
          | Some rs =>
              Some (mkReplacement (group1 m)
                      (slashify (pathToPackageRoot +:+ "/" +:+ group1 m)) :: rs)
          | None => None
          end
      end
  end.

(** Line 123: the replacements folded over the lockfile, each applied to
    the result of the ones before it. *)
Definition applyReplacements (replacements : list Replacement) (lockfile : string)
    : string :=
  foldl (fun acc r => replace acc (oldRef r) (newRef r)) lockfile replacements.

Definition replacements (pathToPackageRoot lockfile : string)
    : option (list Replacement) :=
  collect (S (String.length lockfile)) pathToPackageRoot lockfile 0.

Definition rebaseLockfile (pathToPackageRoot lockfile : string) : option string :=
  match replacements pathToPackageRoot lockfile with
  | Some rs => Some (applyReplacements rs lockfile)
  | None => None
  end.

(** A text [l] holds a lockfile reference at index [j]: the pattern matches
    the text [matched m] there. *)
Definition reference_at (l : string) (j : nat) (m : MatchState) : Prop :=
  j <= String.length l
  /\ string_drop j l = matched m +:+ rest m
  /\ matches fileVersionMatcher (matched m) None (capture m).

(** The specification's reading of line 123, for comparison: every
    occurrence of a pattern (not empty) is replaced, left to right, by the
    replacement taken literally.  [skip] counts the code units of an
    occurrence just replaced that are still to be passed over. *)
Fixpoint replaceAll_from (skip : nat) (s pattern replacement : string) : string :=
  match s with
  | "" => ""
  | String c s' =>
      match skip with
      | S skip' => replaceAll_from skip' s' pattern replacement
      | O =>
          match strip_prefix pattern s with
          | Some _ =>
              replacement
                +:+ replaceAll_from (String.length pattern - 1) s' pattern replacement
          | None => String c (replaceAll_from 0 s' pattern replacement)
          end
      end
  end.

Definition rebaseLockfile_global (pathToPackageRoot lockfile : string)
    : option string :=
  match replacements pathToPackageRoot lockfile with
  | Some rs =>
      Some (foldl (fun acc r => replaceAll_from 0 acc (oldRef r) (newRef r))
                  lockfile rs)
  | None => None
  end.

(** ** Yarn2.getProdDependencies *)

(** A node of the dependency graph: [{ version, dependencies }].  The
    version is what [versions[...]] answered, the dependencies are the own
    properties of the object the reducer filled. *)
Inductive DependencyNode : Type :=
  mkNode { version : Looked; dependencies : gmap string DependencyNode }.

(** The resolved value of [getProdDependencies]:
    [{ problems: [], dependencies }]. *)
Record DependencyGraph : Type := mkGraph {
  problems : list JsValue;
  graph_dependencies : gmap string DependencyNode
}.

(** The prototype of the object [versions]: [Object.prototype] as the
    literal [{}] has it, or what an assignment to [__proto__] has put in
    its place: null, or an object or an array of the listing (whose own
    prototype is the built-in one). *)
Inductive Prototype : Type :=
| DefaultPrototype
| NoPrototype
| ParsedObject (props : list (string * JsValue))
| ParsedArray (l : list JsValue).

(** The object [versions] of line 76: its own properties and its
    prototype. *)
Record VersionIndex : Type := mkIndex {
  own : gmap string JsValue;
  prototype : Prototype
}.

(** Line 76: [{}]. *)
Definition emptyIndex : VersionIndex := mkIndex ∅ DefaultPrototype.

(** [versions[key]]: the own property, else what the prototype chain
    answers. *)
Definition lookupVersion (versions : VersionIndex) (key : string) : Looked :=
  match own versions !! key with
  | Some v => Data v
  | None =>
      match prototype versions with
      | DefaultPrototype => inheritedFromObject ObjectPrototype key
      | NoPrototype => Data JUndefined
      | ParsedObject props =>
          match assoc key props with
          | Some v => Data v
          | None => inheritedFromObject (Data (JObj props)) key
          end
      | ParsedArray l =>
          match arrayOwn l key with
          | Some v => Data v
          | None =>
              if String.eqb key "__proto__" then Data (JArr l)
              else ArrayPrototypeMember key
          end
      end
  end.

(** The setter of [__proto__]: an object, an array or null becomes the
    prototype, any other value is ignored. *)
Definition setPrototype (versions : VersionIndex) (v : JsValue) : VersionIndex :=
  match v with
  | JNull => mkIndex (own versions) NoPrototype
  | JObj props => mkIndex (own versions) (ParsedObject props)
  | JArr l => mkIndex (own versions) (ParsedArray l)
  | _ => versions
  end.

(** [versions[key] = v].  Every name but [__proto__] becomes (or stays) an
    own property.  [__proto__] reaches the setter of [Object.prototype],
    unless the object or its prototype has an own property of that name or
    the chain has been cut by a null prototype: then it is an own property
    like any other. *)
Definition assignVersion (versions : VersionIndex) (key : string) (v : JsValue)
    : VersionIndex :=
  let defined := mkIndex (<[key := v]> (own versions)) (prototype versions) in
  if negb (String.eqb key "__proto__") then defined
  else
    match own versions !! key with
    | Some _ => defined
    | None =>
        match prototype versions with
        | NoPrototype => defined
        | ParsedObject props =>
            match assoc key props with
            | Some _ => defined
            | None => setPrototype versions v
            end
        | ParsedArray _ | DefaultPrototype => setPrototype versions v
        end
    end.

(** Lines 78-80: the index pass, [versions[item.value] = item.children.Version]
    for every parsed value. *)
Definition indexEntry (versions : VersionIndex) (item : JsValue)
    : Result VersionIndex :=
  let* value := getProp item "value" in
  let* children := getProp item "children" in
  let* Version := getProp children "Version" in
  let* key := ToString value in
  Normal (assignVersion versions key Version).

Definition indexPass (parsedValues : list JsValue) : Result VersionIndex :=
  foldM indexEntry emptyIndex parsedValues.

(** Lines 86-92: the name of the module a locator stands for, the first
    piece of the locator split at its at signs, a leading at sign put back
    for a scoped module. *)
Definition moduleName (locator : JsValue) : Result string :=
  let* splitModule := split locator at_sign in
  let* scoped := startsWith locator "@" in
  let splitModule :=
    if scoped then
      match tail splitModule with
      | x :: l => ("@" +:+ x) :: l
      | [] => ["@undefined"]
      end
    else splitModule in
  Normal (match splitModule with
          | x :: _ => x
          | [] => "undefined"
          end).

(** [obj[name] = node] on the object the reducer fills, as its own
    properties show it.  The object starts as [{}] and its prototype is
    only ever replaced by a node, so the name [__proto__] always reaches
    the setter of [Object.prototype]: the node becomes the prototype of
    [obj] and no own property is added.  Every other name becomes (or
    stays) an own property. *)
Definition assignNode (obj : gmap string DependencyNode) (name : string)
    (node : DependencyNode) : gmap string DependencyNode :=
  if String.eqb name "__proto__" then obj else <[name := node]> obj.

(** Lines 85-96: the reducer of [convertValues]; [convert] is the recursive
    call for the dependencies of the entry. *)
Definition convertEntry (convert : JsValue -> Result (gmap string DependencyNode))
    (versions : VersionIndex) (path : string)
    (obj : gmap string DependencyNode) (data : JsValue)
    : Result (gmap string DependencyNode) :=
  let* locator := getProp data path in
  let* name := moduleName locator in
  let* key := ToString locator in
  let* children := getProp data "children" in
  let* deps :=
    (if truthy children then
       let* Dependencies := getProp children "Dependencies" in
       convert Dependencies
     else Normal ∅) in
  Normal (assignNode obj name (mkNode (lookupVersion versions key) deps)).

(** Lines 82-99. *)
Fixpoint convertValues (fuel : nat) (versions : VersionIndex)
    (values : JsValue) (path : string) : Result (gmap string DependencyNode) :=
  match fuel with
  | O => OutOfFuel
  | S fuel' =>
      foldM (convertEntry (fun d => convertValues fuel' versions d "locator")
                          versions path)
            ∅ (collectionElements values)
  end.

(** An entry read by [path] stands for the module [name]. *)
Definition named (path : string) (data : JsValue) (name : string) : Prop :=
  exists locator, getProp data path = Normal locator /\ moduleName locator = Normal name.

(** A parsed value is indexed under [key]: its [value] prints as [key]. *)
Definition keyed (item : JsValue) (key : string) : Prop :=
  exists value, getProp item "value" = Normal value /\ ToString value = Normal key.

(** What [convertValues] builds, at every depth.  Each node of the mapping
    stands for the last entry of its name among the values it was built
    from: it holds what the index answers for the locator of that entry,
    and its dependencies are built in the same way from the entry's
    [children.Dependencies], read by [locator].  And each entry is filed:
    its name is a key of the mapping, unless the name is [__proto__]. *)
Inductive converted (versions : VersionIndex)
    : JsValue -> string -> gmap string DependencyNode -> Prop :=
| converted_intro values path g :
    (forall name node, g !! name = Some node ->
       name <> "__proto__"
       /\ exists earlier data later locator key children,
            collectionElements values = (earlier ++ data :: later)%list
            /\ (forall data', In data' later -> ~ named path data' name)
            /\ getProp data path = Normal locator
            /\ moduleName locator = Normal name
            /\ ToString locator = Normal key
            /\ version node = lookupVersion versions key
            /\ getProp data "children" = Normal children
            /\ (truthy children = true ->
                exists Dependencies,
                  getProp children "Dependencies" = Normal Dependencies
                  /\ converted versions Dependencies "locator" (dependencies node))
            /\ (truthy children = false -> dependencies node = ∅)) ->
    (forall data name, In data (collectionElements values) ->
       named path data name -> name <> "__proto__" -> is_Some (g !! name)) ->
    converted versions values path g.

(** Lines 74-106: from the parsed values to the graph. *)
Definition buildGraph (parsedValues : list JsValue) : Result DependencyGraph :=
  let* versions := indexPass parsedValues in
  let* deps := convertValues (S (depth (JArr parsedValues))) versions
                             (JArr parsedValues) "value" in
  Normal (mkGraph [] deps).

(** How a promise settles.  A rejection carries the SpawnError of the
    process runner (with the output it captured), another error of the
    runner, or a TypeError thrown in a callback. *)
Inductive Reason : Type :=
| SpawnError (stdout stderr : string)
| OtherError
| ThrownTypeError.

Inductive Promise (A : Type) : Type :=
| Fulfilled (a : A)
| Rejected (reason : Reason)
| Unsettled.       (* out of fuel: this embedding only *)

Arguments Fulfilled {A} a.
Arguments Rejected {A} reason.
Arguments Unsettled {A}.

Definition settle {A : Type} (r : Result A) : Promise A :=
  match r with
  | Normal a => Fulfilled a
  | TypeError => Rejected ThrownTypeError
  | OutOfFuel => Unsettled
  end.

Record IgnoredError : Type := { npmError : string }.

(** Line 36. *)
Definition ignoredYarnErrors : list IgnoredError := [].

Definition string_isEmpty (s : string) : bool := String.eqb s "".

Definition string_startsWith (s target : string) : bool :=
  match strip_prefix target s with
  | Some _ => true
  | None => false
  end.

(** Lines 44-57: whether a line of stderr is a critical error. *)
Definition failedBy (stderr : string) : bool :=
  foldl (fun (failed : bool) (error : string) =>
           if failed then true
           else negb (string_isEmpty error)
                && negb (existsb (fun ignoredError =>
                                    string_startsWith error
                                      ("npm ERR! " +:+ npmError ignoredError))
                                 ignoredYarnErrors))
        false (split_on LF stderr).

(** Lines 41-65: the catch handler, which answers with the stdout the
    failed process left behind or rejects with the error it was given. *)
Definition recover (err : Reason) : Promise string :=
  match err with
  | SpawnError stdout stderr =>
      if negb (failedBy stderr) && negb (string_isEmpty stdout)
      then Fulfilled stdout
      else Rejected err
  | _ => Rejected err
  end.

Section Listing.

(** [Utils.splitLines] and [Utils.safeJsonParse] live in lib/utils, outside
    this file: the stage is stated for any two such functions. *)
Variable splitLines : string -> list string.
Variable safeJsonParse : string -> JsValue.

(** A line counts when it parses to a value that is not empty. *)
Definition counts (line : string) : bool := negb (isEmpty (safeJsonParse line)).

(** Lines 67-73. *)
Definition parsedValuesOf (stdout : string) : list JsValue :=
  let lines := splitLines stdout in
  let parsedLines := map safeJsonParse lines in
  List.filter (fun line => negb (isEmpty line)) parsedLines.

(** Lines 66-106: the chain after the process has answered. *)
Definition parseOutput (stdout : string) : Promise DependencyGraph :=
  settle (buildGraph (parsedValuesOf stdout)).

(** Lines 31-107.  [spawned] is how [Utils.spawnProcess] settled: fulfilled
    with the stdout of the process, or rejected. *)
Definition getProdDependencies (spawned : Promise string)
    : Promise DependencyGraph :=
  let caught :=
    match spawned with
    | Rejected err => recover err
    | _ => spawned
    end in
  match caught with
  | Fulfilled stdout => parseOutput stdout
  | Rejected err => Rejected err
  | Unsettled => Unsettled
  end.

End Listing.

(** ** The scan of rebaseLockfile, read as a relation *)

(** The class that ends a reference in [fileVersionMatcher]. *)
Definition terminator (c : ascii) : bool :=
  Ascii.eqb c dquote || Ascii.eqb c colon || Ascii.eqb c comma.

(** [scanned p l lastIndex rs]: [rs] are the pairs of the references of [l]
    met from [lastIndex] on, each one the leftmost reference that starts at
    or after the end of the one before it, until none is left. *)
Inductive scanned (pathToPackageRoot l : string)
    : nat -> list Replacement -> Prop :=
| scanned_end lastIndex :
    (forall j m, lastIndex <= j -> ~ reference_at l j m) ->
    scanned pathToPackageRoot l lastIndex []
| scanned_next lastIndex j m rs :
    lastIndex <= j ->
    reference_at l j m ->
    (forall j' m', lastIndex <= j' -> j' < j -> ~ reference_at l j' m') ->
    scanned pathToPackageRoot l (j + String.length (matched m)) rs ->
    scanned pathToPackageRoot l lastIndex
      (mkReplacement (group1 m)
         (slashify (pathToPackageRoot +:+ "/" +:+ group1 m)) :: rs).

(** ** Stretches of the lockfile between terminators *)

(** [pattern] occurs in [s]. *)
Definition occurs (pattern s : string) : Prop :=
  exists before after, s = before +:+ pattern +:+ after.

(** A text that is empty or ends with a terminator: what comes after it
    starts at the beginning of the lockfile or right after a terminator. *)
Definition ends_at_terminator (s : string) : Prop :=
  s = "" \/ exists s' t, s = s' +:+ String t "" /\ terminator t = true.

(** A text that is empty or starts with a terminator: what comes before
    it ends at the end of the lockfile or right before a terminator. *)
Definition starts_at_terminator (s : string) : Prop :=
  s = "" \/ exists t s', s = String t s' /\ terminator t = true.

(** ** Records of the documented shape *)

(** A locator that is a string, or missing. *)
Definition locatorOk (o : option JsValue) : Prop :=
  o = None \/ exists s, o = Some (JStr s).

(** An entry of the listing as the tool writes it: an object whose locator
    (read by [path]) is a string or missing and whose [children], when it
    has them, are an object whose [Dependencies], when it has them, are an
    array of such entries read by [locator]. *)
Inductive entryOk : string -> JsValue -> Prop :=
| entryOk_leaf path props :
    locatorOk (assoc path props) ->
    assoc "children" props = None ->
    entryOk path (JObj props)
| entryOk_node path props cprops :
    locatorOk (assoc path props) ->
    assoc "children" props = Some (JObj cprops) ->
    dependenciesOk (assoc "Dependencies" cprops) ->
    entryOk path (JObj props)
with dependenciesOk : option JsValue -> Prop :=
| dependenciesOk_missing : dependenciesOk None
| dependenciesOk_array l :
    (forall data, In data l -> entryOk "locator" data) ->
    dependenciesOk (Some (JArr l)).

(** A record of the first level: an entry read by [value] that has its
    [children]. *)
Definition recordOk (item : JsValue) : Prop :=
  entryOk "value" item
  /\ exists props cprops,
       item = JObj props /\ assoc "children" props = Some (JObj cprops).

(** ** Yarn2.install, Yarn2.prune, Yarn2.runScripts *)

(** Lines 32, 127 and 157:
    [/^win/.test(process.platform) ? 'yarn.cmd' : 'yarn']. *)
Definition command (platform : string) : string :=
  if string_startsWith platform "win" then "yarn.cmd" else "yarn".

(** Line 33. *)
Definition listingArgs : list string := ["info"; "--recursive"; "--json"].

(** Lines 128-139: the arguments of [yarn install].  The options are read
    by their truth value; the concurrency is spliced into a template
    literal, that is, printed by ToString. *)
Definition installArgs (packagerOptions : JsValue) : Result (list string) :=
  let args := ["install"] in
  let* noFrozenLockfile := getProp packagerOptions "noFrozenLockfile" in
  let args :=
    if truthy noFrozenLockfile then args else (args ++ ["--frozen-lockfile"])%list in
  let* ignoreScripts := getProp packagerOptions "ignoreScripts" in
  let args :=
    if truthy ignoreScripts then (args ++ ["--ignore-scripts"])%list else args in
  let* networkConcurrency := getProp packagerOptions "networkConcurrency" in
  if truthy networkConcurrency then
    let* printed := ToString networkConcurrency in
    Normal (args ++ ["--network-concurrency " +:+ printed])%list
  else Normal args.

(** [err.stdout] of a rejection, as [_.isEmpty] and [console.log] see it:
    only a SpawnError carries one. *)
Definition stdoutOf (err : Reason) : option string :=
  match err with
  | SpawnError stdout _ => Some stdout
  | _ => None
  end.

Section Commands.

(** [Utils.spawnProcess(command, args, { cwd })] lives in lib/utils: how
    the process it runs settles is given by its command, arguments and
    working directory.  [platform] is [process.platform]. *)
Variable spawnProcess : string -> list string -> string -> Promise string.
Variable platform : string.

(** Lines 126-149.  The call throws when the options cannot be read;
    otherwise it answers with a promise, having written to the console
    what [logged] lists. *)
Definition install (cwd : string) (packagerOptions : JsValue)
    : Result (list string * Promise unit) :=
  let* args := installArgs packagerOptions in
  Normal
    match spawnProcess (command platform) args cwd with
    | Fulfilled _ => ([], Fulfilled tt)
    | Rejected err =>
        (match stdoutOf err with
         | Some stdout => if string_isEmpty stdout then [] else [stdout]
         | None => []
         end,
         Rejected err)
    | Unsettled => ([], Unsettled)
    end.

(** Lines 152-154. *)
Definition prune (cwd : string) (packagerOptions : JsValue)
    : Result (list string * Promise unit) :=
  install cwd packagerOptions.

(** Bluebird's [mapSeries] over the script names, lines 158-162: one
    process after the other, none after the first that fails.  The first
    component lists the argument lists of the processes that were run, in
    order. *)
Fixpoint runSeries (cwd : string) (scriptNames : list string)
    : list (list string) * Promise unit :=
  match scriptNames with
  | [] => ([], Fulfilled tt)
  | scriptName :: scriptNames' =>
      let args := ["run"; scriptName] in
      match spawnProcess (command platform) args cwd with
      | Fulfilled _ =>
          let (ran, promise) := runSeries cwd scriptNames' in
          (args :: ran, promise)
      | Rejected err => ([args], Rejected err)
      | Unsettled => ([args], Unsettled)
      end
  end.

(** Lines 156-163. *)
Definition runScripts (cwd : string) (scriptNames : list string)
    : list (list string) * Promise unit :=
  runSeries cwd scriptNames.

End Commands.

End Yarn2.

(** ** Sample inputs *)

Module Samples.

Import Yarn2.

(** A lockfile entry with a file reference. *)
Definition lockfile_with_reference : string :=
  quoted "pkg@file:../local-dep" +:+ ":".

(** A lockfile entry resolved from the registry. *)
Definition lockfile_without_reference : string :=
  "acorn@^2.1.0, acorn@^2.4.0:" +:+ String LF ("  version " +:+ quoted "2.7.0").

(** A file reference whose at sign comes right after the opening quote. *)
Definition lockfile_with_quoted_at : string :=
  quoted "@file:../local-dep" +:+ ":".

(** Two references to one path. *)
Definition lockfile_with_repeated_path : string := "a@./x: b@./x:".

(** A reference, and its path once more as plain text. *)
Definition lockfile_with_plain_occurrence : string := "a@./x: see ./x".

(** A path after a slash and an at sign, and a reference to the same
    path. *)
Definition lockfile_with_slash_at : string := "/@./a: b@./a:".

(** A file reference whose at sign comes right after the opening quote,
    and a reference to another path. *)
Definition lockfile_mixed : string :=
  quoted "@file:../x" +:+ ": pkg@file:../y:".

(** Two records of a listing, as [JSON.parse] gives them. *)
Definition record_scoped : JsValue :=
  JObj [("value", JStr "@scope/name@npm:1.0.0");
        ("children",
         JObj [("Version", JStr "1.0.0");
               ("Dependencies",
                JArr [JObj [("descriptor", JStr "a@npm:^1.0.0");
                            ("locator", JStr "a@npm:1.0.1")]])])].

Definition record_plain : JsValue :=
  JObj [("value", JStr "a@npm:1.0.1");
        ("children", JObj [("Version", JStr "1.0.1")])].



(** A message of the tool, which has no [children]. *)
Definition record_message : JsValue :=
  JObj [("type", JStr "info"); ("data", JStr "Done")].

Definition line_plain : string :=
  "{" +:+ quoted "value" +:+ ":" +:+ quoted "a@npm:1.0.1" +:+ ","
      +:+ quoted "children" +:+ ":{" +:+ quoted "Version" +:+ ":"
      +:+ quoted "1.0.1" +:+ "}}".

Definition line_message : string :=
  "{" +:+ quoted "type" +:+ ":" +:+ quoted "info" +:+ ","
      +:+ quoted "data" +:+ ":" +:+ quoted "Done" +:+ "}".

(** Stand-ins for [Utils.splitLines] and [Utils.safeJsonParse] in the
    examples: lines end at a line feed, and the parser knows the two
    lines above and answers null for any other line. *)
Definition sample_splitLines (s : string) : list string := split_on LF s.

Definition sample_safeJsonParse (line : string) : JsValue :=
  if String.eqb line line_plain then record_plain
  else if String.eqb line line_message then record_message
  else JNull.

End Samples.

(** ** More sample inputs *)

Module MoreSamples.

Import Yarn2.

(** Options of the packager: scripts off, eight connections. *)
Definition sample_options : JsValue :=
  JObj [("ignoreScripts", JBool true); ("networkConcurrency", JNum "8")].

(** A stand-in for [Utils.spawnProcess] in the examples: the script [test]
    fails, every other script succeeds, and any other command fails for
    want of a lockfile. *)
Definition sample_spawnProcess (command : string) (args : list string)
    (cwd : string) : Promise string :=
  match args with
  | [_; scriptName] =>
      if String.eqb scriptName "test"
      then Rejected (SpawnError "1 failing" "")
      else Fulfilled ""
  | _ => Rejected (SpawnError "no lockfile" "error")
  end.

End MoreSamples.

(** * Properties *)

(** ** Strings *)

Section StringFacts.

Implicit Types s t u : string.

Lemma string_app_nil_r s : s +:+ "" = s.
Proof. induction s as [|c s IH]; simpl; [reflexivity | now rewrite IH]. Qed.

Lemma string_app_assoc s t u : (s +:+ t) +:+ u = s +:+ (t +:+ u).
Proof. induction s as [|c s IH]; simpl; [reflexivity | now rewrite IH]. Qed.

Lemma string_length_app s t :
  String.length (s +:+ t) = String.length s + String.length t.
Proof. induction s as [|c s IH]; simpl; [reflexivity | now rewrite IH]. Qed.

Lemma string_drop_length s n :
  String.length (string_drop n s) = String.length s - n.
Proof.
  revert s; induction n as [|n IH]; intros [|c s]; simpl; auto with arith.
Qed.

(** Every string splits at every index within it. *)
Lemma string_split_at s n :
  n <= String.length s ->
  exists pre, s = pre +:+ string_drop n s /\ String.length pre = n.
Proof.
  revert s; induction n as [|n IH]; intros s Hn.
  - exists "". split; [now destruct s | reflexivity].
  - destruct s as [|c s]; simpl in Hn; [lia |].
    destruct (IH s) as (pre & Hpre & Hlen); [lia |].
    exists (String c pre). simpl. split; [now rewrite <- Hpre | now rewrite Hlen].
Qed.

Lemma string_drop_drop s n m :
  string_drop n (string_drop m s) = string_drop (m + n) s.
Proof.
  revert s; induction m as [|m IH]; intros s; simpl.
  - now destruct n, s.
  - destruct s as [|c s]; [now destruct n | apply IH].
Qed.

Lemma strip_prefix_app p s rest :
  strip_prefix p s = Some rest <-> s = p +:+ rest.
Proof.
  revert s; induction p as [|a p IH]; intros s; simpl.
  - split; [now intros [= ->] | now intros ->].
  - destruct s as [|b s].
    + split; discriminate.
    + destruct (Ascii.eqb_spec a b) as [->|Hne].
      * rewrite IH. split; [now intros -> | now intros [= ->]].
      * split; [discriminate | intros [= -> _]; now elim Hne].
Qed.

Lemma find_first_app pat s before after :
  find_first pat s = Some (before, after) -> s = before +:+ pat +:+ after.
Proof.
  revert before; induction s as [|c s IH]; intros before; simpl.
  - destruct (strip_prefix pat "") eqn:E; [|discriminate].
    intros [= <- <-]. now apply strip_prefix_app in E.
  - destruct (strip_prefix pat (String c s)) eqn:E.
    + intros [= <- <-]. now apply strip_prefix_app in E.
    + destruct (find_first pat s) as [[b a]|]; [|discriminate].
      intros [= <- <-]. simpl. now rewrite (IH b eq_refl).
Qed.

End StringFacts.

(** ** String.prototype.replace *)

Section ReplaceFacts.

(** The occurrence [find_first] reports is the first one: no occurrence
    of the pattern starts earlier in the text. *)
Lemma find_first_is_first pat s before after :
  find_first pat s = Some (before, after) ->
  forall b a, s = b +:+ pat +:+ a -> String.length before <= String.length b.
Proof.
  revert before; induction s as [|c s IH]; intros before; simpl.
  - destruct (strip_prefix pat "") eqn:E; [|discriminate].
    intros [= <- <-] b a _. simpl. lia.
  - destruct (strip_prefix pat (String c s)) eqn:E.
    + intros [= <- <-] b a _. simpl. lia.
    + destruct (find_first pat s) as [[b0 a0]|] eqn:F; [|discriminate].
      intros [= <- <-] b a Hs. destruct b as [|d b].
      * simpl in Hs. apply strip_prefix_app in Hs. congruence.
      * simpl in Hs. injection Hs as _ Hs. simpl.
        specialize (IH b0 eq_refl b a Hs). lia.
Qed.

Lemma find_first_none pat s :
  find_first pat s = None -> forall b a, s <> b +:+ pat +:+ a.
Proof.
  induction s as [|c s IH]; simpl.
  - destruct (strip_prefix pat "") eqn:E; [discriminate |].
    intros _ b a Hs. destruct b as [|d b]; [|discriminate Hs].
    simpl in Hs. apply strip_prefix_app in Hs. congruence.
  - destruct (strip_prefix pat (String c s)) eqn:E; [discriminate |].
    destruct (find_first pat s) as [[b0 a0]|] eqn:F; [discriminate |].
    intros _ b a Hs. destruct b as [|d b].
    + simpl in Hs. apply strip_prefix_app in Hs. congruence.
    + simpl in Hs. injection Hs as _ Hs. now apply (IH eq_refl b a).
Qed.

(** A template without a dollar is substituted as it is. *)
Lemma GetSubstitution_plain m before after template :
  string_forall (fun c => negb (Ascii.eqb c dollar)) template = true ->
  GetSubstitution m before after template = template.
Proof.
  induction template as [|c t IH]; simpl; [reflexivity |].
  intros H. apply andb_prop in H as [Hc Ht].
  apply negb_true_iff in Hc. rewrite Hc. now rewrite (IH Ht).
Qed.

(** [replace] rewrites one occurrence of the pattern, the first, and
    leaves the text after it as it is, occurrences of the pattern
    included. *)
Lemma replace_first_occurrence s pattern replacement :
  (exists before after,
      s = before +:+ pattern +:+ after
      /\ (forall b a, s = b +:+ pattern +:+ a ->
                      String.length before <= String.length b)
      /\ replace s pattern replacement
         = before +:+ GetSubstitution pattern before after replacement +:+ after)
  \/ ((forall b a, s <> b +:+ pattern +:+ a)
      /\ replace s pattern replacement = s).
Proof.
  unfold replace. destruct (find_first pattern s) as [[before after]|] eqn:E.
  - left. exists before, after.
    split; [now apply find_first_app | split; [|reflexivity]].
    now apply (find_first_is_first pattern s before after).
  - right. split; [now apply find_first_none | reflexivity].
Qed.

End ReplaceFacts.

(** ** The matcher *)

Module RegexFacts.

Lemma lazy_star_sound p s acc k res cap :
  matches (LazyStar p) acc cap cap ->
  lazy_star p s acc k = Some res ->
  exists m s', acc +:+ s = m +:+ s' /\ matches (LazyStar p) m cap cap
               /\ k m s' = Some res.
Proof.
  revert acc; induction s as [|c s IH]; intros acc Hacc; simpl.
  - destruct (k acc "") eqn:E; [|discriminate].
    intros [= <-]. now exists acc, "".
  - destruct (k acc (String c s)) eqn:E.
    + intros [= <-]. now exists acc, (String c s).
    + destruct (p c) eqn:Hp; [|discriminate].
      intros H. apply IH in H; [|now constructor].
      destruct H as (m & s' & Heq & Hm & Hk).
      exists m, s'. rewrite <- Heq, string_app_assoc. now simpl.
Qed.

(** Soundness of the matcher: an answer comes from the continuation, fed
    with a text the regex matches at the head of the input. *)
Lemma run_sound r : forall s cap k res,
  run r s cap k = Some res ->
  exists m cap' s', s = m +:+ s' /\ matches r m cap cap'
                    /\ k m cap' s' = Some res.
Proof.
  induction r as [p|r1 IH1 r2 IH2|r1 IH1 r2 IH2|r IH|p|r IH];
    intros s cap k res; simpl.
  - destruct s as [|c s]; [discriminate |].
    destruct (p c) eqn:Hp; [|discriminate].
    intros H. exists (String c ""), cap, s. repeat split; [now constructor | exact H].
  - intros H. apply IH1 in H. destruct H as (m1 & cap1 & s1 & -> & Hm1 & H).
    apply IH2 in H. destruct H as (m2 & cap2 & s2 & -> & Hm2 & H).
    exists (m1 +:+ m2), cap2, s2. rewrite string_app_assoc.
    repeat split; [econstructor; eassumption | exact H].
  - destruct (run r1 s cap k) as [res0|] eqn:E.
    + intros [= <-]. apply IH1 in E. destruct E as (m & cap' & s' & -> & Hm & H).
      exists m, cap', s'. repeat split; [now apply M_alt_l | exact H].
    + intros H. apply IH2 in H. destruct H as (m & cap' & s' & -> & Hm & H).
      exists m, cap', s'. repeat split; [now apply M_alt_r | exact H].
  - destruct (run r s cap k) as [res0|] eqn:E.
    + intros [= <-]. apply IH in E. destruct E as (m & cap' & s' & -> & Hm & H).
      exists m, cap', s'. repeat split; [now apply M_opt_some | exact H].
    + intros H. exists "", cap, s. repeat split; [apply M_opt_none | exact H].
  - intros H. apply (lazy_star_sound _ _ _ _ _ cap) in H; [|constructor].
    destruct H as (m & s' & Heq & Hm & H). simpl in Heq.
    now exists m, cap, s'.
  - intros H. apply IH in H. destruct H as (m & cap' & s' & -> & Hm & H).
    exists m, (Some m), s'. repeat split; [econstructor; eassumption | exact H].
Qed.

Lemma match_here_sound r s res :
  match_here r s = Some res ->
  s = matched res +:+ rest res /\ matches r (matched res) None (capture res).
Proof.
  unfold match_here. intros H. apply run_sound in H.
  destruct H as (m & cap' & s' & -> & Hm & [= <-]). now simpl.
Qed.

(** [search] answers with a start position at or after the one it was
    given, where the regex matches at the head of the remaining input. *)
Lemma search_sound r : forall s i j res,
  search r s i = Some (j, res) ->
  exists n, j = i + n /\ n <= String.length s
            /\ match_here r (string_drop n s) = Some res.
Proof.
  induction s as [|c s IH]; intros i j res; simpl.
  - destruct (match_here r "") eqn:E; [|discriminate].
    intros [= <- <-]. exists 0. rewrite Nat.add_0_r. now simpl.
  - destruct (match_here r (String c s)) eqn:E.
    + intros [= <- <-]. exists 0. rewrite Nat.add_0_r. simpl. split; [easy | split; [lia | easy]].
    + intros H. apply IH in H. destruct H as (n & -> & Hn & H).
      exists (S n). simpl. split; [lia | split; [lia | exact H]].
Qed.

End RegexFacts.

Import RegexFacts.

(** ** The lockfile reference pattern *)

Section FileVersionMatcher.

Import Yarn2.

Lemma string_forall_app p s t :
  string_forall p (s +:+ t) = string_forall p s && string_forall p t.
Proof.
  induction s as [|c s IH]; simpl; [reflexivity |].
  now rewrite IH, andb_assoc.
Qed.

Lemma matches_class_inv p m cap cap' :
  matches (Class p) m cap cap' ->
  exists c, m = String c "" /\ p c = true /\ cap' = cap.
Proof. intros H. inversion H; subst. now exists c. Qed.

Lemma matches_seq_inv r1 r2 m cap cap' :
  matches (Seq r1 r2) m cap cap' ->
  exists m1 m2 cap1,
    m = m1 +:+ m2 /\ matches r1 m1 cap cap1 /\ matches r2 m2 cap1 cap'.
Proof. intros H. inversion H; subst. now exists m1, m2, cap1. Qed.

Lemma matches_alt_inv r1 r2 m cap cap' :
  matches (Alt r1 r2) m cap cap' ->
  matches r1 m cap cap' \/ matches r2 m cap cap'.
Proof. intros H. inversion H; subst; [now left | now right]. Qed.

Lemma matches_opt_inv r m cap cap' :
  matches (Opt r) m cap cap' ->
  matches r m cap cap' \/ (m = "" /\ cap' = cap).
Proof. intros H. inversion H; subst; [now left | now right]. Qed.

Lemma matches_group_inv r m cap cap' :
  matches (Group r) m cap cap' ->
  cap' = Some m /\ exists cap1, matches r m cap cap1.
Proof. intros H. inversion H; subst. split; [reflexivity | now exists cap'0]. Qed.

Lemma matches_lit c m cap cap' :
  matches (lit c) m cap cap' -> m = String c "" /\ cap' = cap.
Proof.
  intros H. apply matches_class_inv in H as (d & -> & Hd & ->).
  apply Ascii.eqb_eq in Hd. now subst.
Qed.

Lemma matches_lits s m cap cap' :
  s <> "" -> matches (lits s) m cap cap' -> m = s /\ cap' = cap.
Proof.
  revert m cap cap'; induction s as [|c s IH]; intros m cap cap' Hs H; [easy |].
  destruct s as [|d s].
  - now apply matches_lit in H.
  - change (lits (String c (String d s))) with (Seq (lit c) (lits (String d s))) in H.
    apply matches_seq_inv in H as (m1 & m2 & cap1 & -> & H1 & H2).
    apply matches_lit in H1 as [-> ->].
    apply IH in H2 as [-> ->]; [now split | easy].
Qed.

Lemma matches_star p m cap cap' :
  matches (LazyStar p) m cap cap' -> cap' = cap /\ string_forall p m = true.
Proof.
  intros H. remember (LazyStar p) as r eqn:Hr.
  induction H as [| | | | | | |q m c cap H IH Hc|]; try discriminate;
    injection Hr as ->.
  - now split.
  - split; [reflexivity |].
    rewrite string_forall_app. simpl.
    destruct IH as [_ ->]; [reflexivity |]. now rewrite Hc.
Qed.

(** The texts [fileVersionMatcher] matches: one code unit other than a
    double quote or a slash, the at sign, [file:] or nothing, then the
    captured path ([./] or [../] and code units of one line), then a double
    quote, a colon or a comma. *)
Lemma fileVersionMatcher_shape m cap :
  matches fileVersionMatcher m None cap ->
  exists c file head body t,
    m = String c (String at_sign (file +:+ (head +:+ body) +:+ String t ""))
    /\ cap = Some (head +:+ body)
    /\ c <> dquote /\ c <> slash
    /\ (file = "" \/ file = "file:")
    /\ (head = "./" \/ head = "../")
    /\ (t = dquote \/ t = colon \/ t = comma)
    /\ string_forall dot body = true.
Proof.
  unfold fileVersionMatcher. intros H.
  apply matches_seq_inv in H as (m1 & m2 & cap1 & -> & H1 & H).
  apply matches_class_inv in H1 as (c & -> & Hc & ->).
  apply matches_seq_inv in H as (m1 & m3 & cap1 & -> & H1 & H).
  apply matches_lit in H1 as [-> ->].
  apply matches_seq_inv in H as (file & m4 & cap1 & -> & Hfile & H).
  apply matches_seq_inv in H as (g & m5 & cap2 & -> & Hg & H).
  apply matches_class_inv in H as (t & -> & Ht & ->).
  apply matches_group_inv in Hg as [-> (cap3 & Hg)].
  apply matches_seq_inv in Hg as (head & body & cap4 & -> & Hhead & Hbody).
  apply matches_star in Hbody as [_ Hbody].
  exists c, file, head, body, t.
  assert (Hf : file = "" \/ file = "file:").
  { apply matches_opt_inv in Hfile as [Hfile|[-> _]]; [|now left].
    apply matches_lits in Hfile as [-> _]; [now right | easy]. }
  assert (Hh : head = "./" \/ head = "../").
  { apply matches_alt_inv in Hhead as [Hhead|Hhead];
      apply matches_lits in Hhead as [-> _]; try easy; [now left | now right]. }
  repeat split; try assumption.
  - intros ->. now simpl in Hc.
  - intros ->. now simpl in Hc.
  - apply orb_prop in Ht as [Ht|Ht]; [apply orb_prop in Ht as [Ht|Ht]|];
      apply Ascii.eqb_eq in Ht; subst; auto.
Qed.

End FileVersionMatcher.

(** ** Completeness of the matcher *)

Module RegexComplete.

Lemma lazy_star_complete p m : forall acc s' k res,
  string_forall p m = true ->
  k (acc +:+ m) s' = Some res ->
  exists res', lazy_star p (m +:+ s') acc k = Some res'.
Proof.
  induction m as [|c m IH]; intros acc s' k res Hm Hk.
  - rewrite string_app_nil_r in Hk. simpl.
    destruct s' as [|d s']; simpl; rewrite Hk; now exists res.
  - simpl in Hm. apply andb_prop in Hm as [Hc Hm]. simpl.
    destruct (k acc (String c (m +:+ s'))) as [r0|]; [now exists r0 |].
    rewrite Hc. apply (IH _ _ _ res Hm).
    now rewrite string_app_assoc.
Qed.

(** Whenever the regex matches a text at the head of the input and the
    continuation accepts it, the matcher answers (with this match or one it
    tried before it). *)
Lemma run_complete r m cap cap' :
  matches r m cap cap' ->
  forall s' k res, k m cap' s' = Some res ->
  exists res', run r (m +:+ s') cap k = Some res'.
Proof.
  intros H.
  assert (Hstar : forall p m0 c0, matches (LazyStar p) m0 c0 c0 ->
            forall s' k res, k m0 c0 s' = Some res ->
            exists res', run (LazyStar p) (m0 +:+ s') c0 k = Some res').
  { intros p m0 c0 Hm s' k res Hk. simpl.
    apply matches_star in Hm as [_ Hm].
    now apply (lazy_star_complete p m0 "" s' _ res Hm). }
  induction H as [p c cap Hc
                 |r1 r2 m1 m2 cap cap1 cap2 H1 IH1 H2 IH2
                 |r1 r2 m cap cap' H1 IH1
                 |r1 r2 m cap cap' H2 IH2
                 |r m cap cap' H1 IH1
                 |r cap
                 |p cap
                 |p m c cap H1 _ Hc
                 |r m cap cap' H1 IH1]; intros s' k res Hk.
  - simpl. rewrite Hc. now exists res.
  - simpl. rewrite string_app_assoc.
    destruct (IH2 s' (fun m2' cap2' s2 => k (m1 +:+ m2') cap2' s2) res Hk)
      as [res2 Hres2].
    apply (IH1 (m2 +:+ s') _ res2). exact Hres2.
  - simpl. destruct (IH1 s' k res Hk) as [res1 ->]. now exists res1.
  - simpl. destruct (run r1 (m +:+ s') cap k) as [r0|]; [now exists r0 |].
    now apply (IH2 s' k res).
  - simpl. destruct (IH1 s' k res Hk) as [res1 ->]. now exists res1.
  - simpl. destruct (run r s' cap k) as [r0|]; [now exists r0 |].
    now exists res.
  - apply (Hstar p "" cap (M_star_nil p cap) s' k res Hk).
  - apply (Hstar p _ cap (M_star_snoc p m c cap H1 Hc) s' k res Hk).
  - simpl. apply (IH1 s' (fun m0 _ s0 => k m0 (Some m0) s0) res). exact Hk.
Qed.

Lemma match_here_complete r m cap post :
  matches r m None cap -> exists res, match_here r (m +:+ post) = Some res.
Proof.
  intros H. unfold match_here.
  now apply (run_complete r m None cap H post _ (mkMatch m cap post)).
Qed.

Lemma search_complete r : forall pre m cap post i,
  matches r m None cap ->
  exists res, search r (pre +:+ m +:+ post) i = Some res.
Proof.
  induction pre as [|c pre IH]; intros m cap post i H.
  - simpl. destruct (match_here_complete r m cap post H) as [res Hres].
    destruct (m +:+ post) as [|d s]; simpl; rewrite Hres; now exists (i, res).
  - simpl. destruct (match_here r (String c (pre +:+ m +:+ post))) as [r0|].
    + now exists (i, r0).
    + now apply (IH m cap post (S i)).
Qed.

End RegexComplete.

Import RegexComplete.

(** ** The loop of rebaseLockfile *)

Module RebaseFacts.

Import Yarn2.

Lemma exec_Some l lastIndex m lastIndex' :
  exec fileVersionMatcher l lastIndex = (Some m, lastIndex') ->
  exists j, lastIndex <= j /\ reference_at l j m
            /\ lastIndex' = j + String.length (matched m).
Proof.
  unfold exec. destruct (Nat.ltb_spec (String.length l) lastIndex) as [|Hle];
    [discriminate |].
  destruct (search _ _ _) as [[i m0]|] eqn:E; [|discriminate].
  intros [= -> <-]. apply search_sound in E as (n & -> & Hn & E).
  rewrite string_drop_length in Hn. rewrite string_drop_drop in E.
  apply match_here_sound in E as [E1 E2].
  exists (lastIndex + n). unfold reference_at. repeat split; auto; lia.
Qed.

Lemma exec_None l lastIndex n :
  exec fileVersionMatcher l lastIndex = (None, n) ->
  String.length l < lastIndex
  \/ search fileVersionMatcher (string_drop lastIndex l) lastIndex = None.
Proof.
  unfold exec. destruct (Nat.ltb_spec (String.length l) lastIndex) as [|Hle];
    [now left |].
  destruct (search _ _ _) as [[i m0]|]; [discriminate | now right].
Qed.

(** A match is never empty, so [lastIndex] moves forward and stays within
    the text. *)
Lemma reference_at_bounds l j m :
  reference_at l j m ->
  0 < String.length (matched m) /\ j + String.length (matched m) <= String.length l.
Proof.
  intros (Hj & Hdrop & Hm).
  pose proof (string_drop_length l j) as Hlen. rewrite Hdrop in Hlen.
  rewrite string_length_app in Hlen.
  apply fileVersionMatcher_shape in Hm as (c & file & head & body & t & Hm & _).
  rewrite Hm in *. simpl in *. lia.
Qed.

(** The loop ends before the fuel does. *)
Lemma collect_total p l : forall fuel lastIndex,
  String.length l - lastIndex < fuel ->
  exists rs, collect fuel p l lastIndex = Some rs.
Proof.
  induction fuel as [|fuel IH]; intros lastIndex Hfuel; [lia |].
  simpl. destruct (exec fileVersionMatcher l lastIndex) as [[m|] li'] eqn:E.
  - apply exec_Some in E as (j & Hj & Href & ->).
    apply reference_at_bounds in Href as [Hpos Hle].
    destruct (IH (j + String.length (matched m))) as [rs ->]; [lia |].
    eexists; reflexivity.
  - now exists [].
Qed.

(** Every collected pair comes from a reference of the text, at or after
    the index the loop was started at. *)
Lemma collect_In p l : forall fuel lastIndex rs r,
  collect fuel p l lastIndex = Some rs -> In r rs ->
  exists j m, lastIndex <= j /\ reference_at l j m
    /\ oldRef r = group1 m
    /\ newRef r = slashify (p +:+ "/" +:+ group1 m).
Proof.
  induction fuel as [|fuel IH]; intros lastIndex rs r; simpl; [discriminate |].
  destruct (exec fileVersionMatcher l lastIndex) as [[m|] li'] eqn:E.
  - destruct (collect fuel p l li') as [rs'|] eqn:E'; [|discriminate].
    intros [= <-] [<-|Hin].
    + apply exec_Some in E as (j & Hj & Href & _). now exists j, m.
    + apply exec_Some in E as (j & Hj & Href & ->).
      destruct (IH _ _ _ E' Hin) as (j' & m' & Hj' & H').
      exists j', m'. split; [lia | exact H'].
  - intros [= <-] [].
Qed.

(** A text without a reference yields no pair. *)
Lemma collect_nil p l fuel :
  (forall pre m cap post,
      l = pre +:+ m +:+ post -> ~ matches fileVersionMatcher m None cap) ->
  0 < fuel -> collect fuel p l 0 = Some [].
Proof.
  intros Hno Hfuel. destruct fuel as [|fuel]; [lia |]. simpl.
  destruct (exec fileVersionMatcher l 0) as [[m|] li'] eqn:E; [|reflexivity].
  apply exec_Some in E as (j & _ & (Hj & Hdrop & Hm) & _).
  destruct (string_split_at l j Hj) as (pre & Hpre & _).
  rewrite Hdrop in Hpre. now elim (Hno pre (matched m) (capture m) (rest m)).
Qed.

(** ... and a text with a reference yields at least one. *)
Lemma collect_cons p l pre m cap post :
  l = pre +:+ m +:+ post -> matches fileVersionMatcher m None cap ->
  replacements p l <> Some [].
Proof.
  intros -> Hm. unfold replacements. simpl.
  destruct (exec _ _ 0) as [[m0|] li'] eqn:E.
  - destruct (collect _ _ _ _); discriminate.
  - apply exec_None in E as [E|E]; [lia |].
    assert (Hd : forall s, string_drop 0 s = s) by (now intros []).
    rewrite Hd in E.
    destruct (search_complete fileVersionMatcher pre m cap post 0 Hm) as [res Hres].
    congruence.
Qed.

End RebaseFacts.

Import RebaseFacts.

(** ** rebaseLockfile *)

Module RebaseTheorems.

Import Yarn2.

(** A collected pair, read back in the lockfile: the text before the
    reference, the code unit before the at sign, the optional [file:], the
    captured path (the pair's [oldRef]), the terminator and the rest. *)
Lemma replacement_origin p l rs r :
  replacements p l = Some rs -> In r rs ->
  exists pre c file head body t post,
    l = pre +:+ String c (String at_sign (file +:+ oldRef r +:+ String t post))
    /\ oldRef r = head +:+ body
    /\ newRef r = slashify (p +:+ "/" +:+ oldRef r)
    /\ c <> dquote /\ c <> slash
    /\ (file = "" \/ file = "file:")
    /\ (head = "./" \/ head = "../")
    /\ (t = dquote \/ t = colon \/ t = comma)
    /\ string_forall dot body = true.
Proof.
  intros Hrs Hin.
  destruct (collect_In _ _ _ _ _ _ Hrs Hin)
    as (j & m & _ & (Hj & Hdrop & Hm) & Hold & Hnew).
  apply fileVersionMatcher_shape in Hm
    as (c & file & head & body & t & Hmatched & Hcap & Hshape).
  destruct (string_split_at l j Hj) as (pre & Hpre & _).
  assert (Hg : group1 m = head +:+ body) by (unfold group1; now rewrite Hcap).
  exists pre, c, file, head, body, t, (rest m).
  rewrite Hold, Hg. rewrite Hg in Hnew.
  split; [|split; [reflexivity | split; [exact Hnew | exact Hshape]]].
  rewrite Hpre at 1. rewrite Hdrop, Hmatched. simpl.
  now rewrite !string_app_assoc.
Qed.

(** C3.  Every pair [rebaseLockfile] collects stems from a place of the
    lockfile that reads: a package specifier ending in a code unit other
    than a double quote or a slash, the at sign, optionally [file:], then
    the captured path, which starts with [./] or [../] and ends right
    before a double quote, a slash, a colon or a comma. *)
Theorem reference_is_relative_path_before_terminator
    (pathToPackageRoot lockfile : string) (rs : list Replacement) (r : Replacement) :
  replacements pathToPackageRoot lockfile = Some rs -> In r rs ->
  exists pre c file t post,
    lockfile = pre +:+ String c (String at_sign (file +:+ oldRef r +:+ String t post))
    /\ (file = "" \/ file = "file:")
    /\ (exists body, oldRef r = "./" +:+ body \/ oldRef r = "../" +:+ body)
    /\ (t = dquote \/ t = slash \/ t = colon \/ t = comma).
Proof.
  intros Hrs Hin.
  destruct (replacement_origin _ _ _ _ Hrs Hin)
    as (pre & c & file & head & body & t & post
        & Hl & Hold & _ & _ & _ & Hfile & Hhead & Ht & _).
  exists pre, c, file, t, post.
  split; [exact Hl | split; [exact Hfile | split]].
  - exists body. rewrite Hold. destruct Hhead as [->| ->]; [now left | now right].
  - destruct Ht as [->|[->| ->]]; auto.
Qed.

(** C8.  The [newRef] of every collected pair is the package root, a slash
    and the pair's [oldRef], with every backslash turned into a slash. *)
Theorem newRef_is_slashed_root_and_oldRef
    (pathToPackageRoot lockfile : string) (rs : list Replacement) (r : Replacement) :
  replacements pathToPackageRoot lockfile = Some rs -> In r rs ->
  newRef r = slashify (pathToPackageRoot +:+ "/" +:+ oldRef r).
Proof.
  intros Hrs Hin.
  destruct (replacement_origin _ _ _ _ Hrs Hin)
    as (pre & c & file & head & body & t & post & _ & _ & Hnew & _).
  exact Hnew.
Qed.

(** C9.  [rebaseLockfile] answers for every root and every lockfile (the
    loop ends within its fuel), and when no text inside the lockfile
    matches the reference pattern the answer is the lockfile itself. *)
Theorem rebaseLockfile_total_identity_without_reference
    (pathToPackageRoot lockfile : string) :
  exists out,
    rebaseLockfile pathToPackageRoot lockfile = Some out
    /\ ((forall pre m cap post,
            lockfile = pre +:+ m +:+ post ->
            ~ matches fileVersionMatcher m None cap) ->
        out = lockfile).
Proof.
  unfold rebaseLockfile, replacements.
  destruct (collect_total pathToPackageRoot lockfile
              (S (String.length lockfile)) 0) as [rs Hrs]; [lia |].
  rewrite Hrs. eexists. split; [reflexivity |].
  intros Hno.
  rewrite (collect_nil pathToPackageRoot lockfile _ Hno) in Hrs by lia.
  now injection Hrs as <-.
Qed.

End RebaseTheorems.

(** ** JS values *)

Module JsFacts.

(** Induction on a value, with the property at hand for every element of
    an array and every property value of an object. *)
Lemma JsValue_nested_ind (P : JsValue -> Prop) :
  P JUndefined -> P JNull -> (forall b, P (JBool b)) -> (forall n, P (JNum n)) ->
  (forall s, P (JStr s)) ->
  (forall l, Forall P l -> P (JArr l)) ->
  (forall props, Forall (fun kv => P (snd kv)) props -> P (JObj props)) ->
  forall v, P v.
Proof.
  intros Hu Hn Hb Hz Hs Ha Ho.
  fix IH 1.
  intros [| |b|n|s|l|props];
    [exact Hu | exact Hn | apply Hb | apply Hz | apply Hs | | ].
  - apply Ha. induction l as [|x l IHl]; constructor; [apply IH | exact IHl].
  - apply Ho. induction props as [|[k x] props IHp]; constructor;
      [apply IH | exact IHp].
Qed.

Lemma bind_Normal {A B} (r : Result A) (f : A -> Result B) b :
  bind r f = Normal b -> exists a, r = Normal a /\ f a = Normal b.
Proof. destruct r as [a| |]; simpl; [now exists a | discriminate | discriminate]. Qed.

Lemma bind_not_OutOfFuel {A B} (r : Result A) (f : A -> Result B) :
  r <> OutOfFuel -> (forall a, r = Normal a -> f a <> OutOfFuel) ->
  bind r f <> OutOfFuel.
Proof. destruct r as [a| |]; simpl; [now auto | easy | easy]. Qed.

Lemma joinM_not_OutOfFuel sep l :
  Forall (fun r => r <> OutOfFuel) l -> joinM sep l <> OutOfFuel.
Proof.
  induction 1 as [|r l Hr Hl IH]; simpl; [easy |].
  destruct l as [|r' l']; [exact Hr |].
  apply bind_not_OutOfFuel; [exact Hr |].
  intros s _. apply bind_not_OutOfFuel; [exact IH | easy].
Qed.

Lemma ToString_not_OutOfFuel v : ToString v <> OutOfFuel.
Proof.
  induction v as [| |b|n|s|l IH|props _] using JsValue_nested_ind;
    simpl; try easy.
  - apply joinM_not_OutOfFuel.
    induction IH as [|x l Hx _ IHl]; constructor; [|exact IHl].
    now destruct x.
  - now destruct (assoc "toString" props).
Qed.

Lemma baseToString_not_OutOfFuel v : baseToString v <> OutOfFuel.
Proof.
  induction v as [| |b|n|s|l IH|props _] using JsValue_nested_ind;
    simpl; try easy.
  - apply joinM_not_OutOfFuel.
    induction IH as [|x l Hx _ IHl]; constructor; [exact Hx | exact IHl].
  - now destruct (assoc "toString" props).
Qed.

Lemma toString_not_OutOfFuel v : toString v <> OutOfFuel.
Proof.
  destruct v as [| |b|n|s|l|props]; try easy.
  - apply (baseToString_not_OutOfFuel (JArr l)).
  - apply (baseToString_not_OutOfFuel (JObj props)).
Qed.

Lemma getProp_not_OutOfFuel v k : getProp v k <> OutOfFuel.
Proof. now destruct v. Qed.

(** Whatever is read off a value lies less deep than the value, unless it
    is a primitive. *)
Lemma assoc_depth k props v :
  assoc k props = Some v -> depth v < depth (JObj props).
Proof.
  simpl. induction props as [|[k' x] props IH]; simpl; [discriminate |].
  destruct (String.eqb k k').
  - intros [= ->]. lia.
  - intros H. specialize (IH H). lia.
Qed.

Lemma elem_depth x l : In x l -> depth x < depth (JArr l).
Proof.
  simpl. induction l as [|y l IH]; simpl; [easy |].
  intros [->|H]; [lia | specialize (IH H); lia].
Qed.

Lemma getProp_depth v k c :
  getProp v k = Normal c -> depth c < depth v \/ c = JUndefined.
Proof.
  destruct v as [| |b|n|s|l|props]; simpl; try discriminate;
    try (intros [= <-]; now right).
  destruct (assoc k props) as [x|] eqn:E; intros [= <-]; simpl.
  - left. now apply (assoc_depth k).
  - now right.
Qed.

Lemma chars_depth x s : In x (chars s) -> depth x = 0.
Proof.
  induction s as [|c s IH]; simpl; [easy |]. intros [<-|H]; [reflexivity | auto].
Qed.

Lemma props_depth x props : In x (map snd props) -> depth x < depth (JObj props).
Proof.
  simpl. induction props as [|[k y] props IH]; simpl; [easy |].
  intros [->|H]; [lia | specialize (IH H); lia].
Qed.

Lemma collectionElements_depth v x :
  In x (collectionElements v) -> depth x < depth v \/ depth x = 0.
Proof.
  destruct v as [| |b|n|s|l|props]; simpl collectionElements; try easy.
  - intros H. right. now apply (chars_depth x s).
  - intros H. left. now apply elem_depth.
  - assert (Hprops : In x (map snd props) -> depth x < depth (JObj props) \/ depth x = 0)
      by (intros H; left; now apply props_depth).
    destruct (asLength _) as [n|]; auto.
    rewrite in_map_iff. intros (i & <- & _).
    destruct (assoc (pretty i) props) as [y|] eqn:Ei; simpl.
    + left. now apply (assoc_depth (pretty i)).
    + now right.
Qed.

End JsFacts.

Import JsFacts.

(** ** The dependency graph *)

Module GraphFacts.

Import Yarn2.

Lemma foldM_not_OutOfFuel {A B} (f : A -> B -> Result A) l : forall acc,
  (forall a x, In x l -> f a x <> OutOfFuel) -> foldM f acc l <> OutOfFuel.
Proof.
  induction l as [|x l IH]; intros acc Hf; simpl; [easy |].
  apply bind_not_OutOfFuel; [apply Hf; now left |].
  intros a _. apply IH. intros a' y Hy. apply Hf. now right.
Qed.


Lemma moduleName_not_OutOfFuel v : moduleName v <> OutOfFuel.
Proof.
  unfold moduleName, split, startsWith.
  pose proof (toString_not_OutOfFuel v) as H.
  destruct (toString v); simpl; easy.
Qed.

(** What one step of the reducer does when it does not throw. *)
Lemma convertEntry_Normal convert versions path obj data obj' :
  convertEntry convert versions path obj data = Normal obj' ->
  exists locator name key children deps,
    getProp data path = Normal locator
    /\ moduleName locator = Normal name
    /\ ToString locator = Normal key
    /\ getProp data "children" = Normal children
    /\ (truthy children = true ->
        exists Dependencies,
          getProp children "Dependencies" = Normal Dependencies
          /\ convert Dependencies = Normal deps)
    /\ (truthy children = false -> deps = ∅)
    /\ obj' = assignNode obj name (mkNode (lookupVersion versions key) deps).
Proof.
  unfold convertEntry. intros H.
  apply bind_Normal in H as (locator & Hloc & H).
  apply bind_Normal in H as (name & Hname & H).
  apply bind_Normal in H as (key & Hkey & H).
  apply bind_Normal in H as (children & Hch & H).
  apply bind_Normal in H as (deps & Hdeps & [= <-]).
  exists locator, name, key, children, deps.
  repeat split; try assumption.
  - intros Ht. rewrite Ht in Hdeps.
    apply bind_Normal in Hdeps as (D & HD & Hconv). now exists D.
  - intros Ht. rewrite Ht in Hdeps. now injection Hdeps as <-.
Qed.

(** The fuel [buildGraph] gives is enough: the recursion never runs out of
    it on a value less deep than the fuel. *)
Lemma convertValues_enough_fuel versions : forall fuel values path,
  depth values < fuel -> convertValues fuel versions values path <> OutOfFuel.
Proof.
  induction fuel as [|fuel IH]; intros values path Hfuel; [lia |].
  simpl. apply foldM_not_OutOfFuel. intros obj data Hdata.
  apply collectionElements_depth in Hdata.
  unfold convertEntry.
  apply bind_not_OutOfFuel; [apply getProp_not_OutOfFuel | intros locator _].
  apply bind_not_OutOfFuel; [apply moduleName_not_OutOfFuel | intros name _].
  apply bind_not_OutOfFuel; [apply ToString_not_OutOfFuel | intros key _].
  apply bind_not_OutOfFuel; [apply getProp_not_OutOfFuel | intros children Hch].
  apply bind_not_OutOfFuel; [|easy].
  destruct (truthy children) eqn:Ht; [|easy].
  apply bind_not_OutOfFuel; [apply getProp_not_OutOfFuel | intros D HD].
  apply IH.
  apply getProp_depth in Hch as [Hch| ->]; [|discriminate].
  apply getProp_depth in HD as [HD| ->]; simpl; lia.
Qed.

Lemma buildGraph_not_OutOfFuel parsedValues :
  buildGraph parsedValues <> OutOfFuel.
Proof.
  unfold buildGraph.
  apply bind_not_OutOfFuel.
  - apply foldM_not_OutOfFuel. intros versions item _. unfold indexEntry.
    apply bind_not_OutOfFuel; [apply getProp_not_OutOfFuel | intros value _].
    apply bind_not_OutOfFuel; [apply getProp_not_OutOfFuel | intros children _].
    apply bind_not_OutOfFuel; [apply getProp_not_OutOfFuel | intros Version _].
    apply bind_not_OutOfFuel; [apply ToString_not_OutOfFuel | easy].
  - intros versions _.
    apply bind_not_OutOfFuel; [|easy].
    apply convertValues_enough_fuel. lia.
Qed.

(** An invariant of the accumulator and of the elements folded so far
    that every step keeps holds at the end of the fold. *)
Lemma foldM_prefix_invariant {A B} (Inv : list B -> A -> Prop)
    (f : A -> B -> Result A) (all : list B) :
  (forall pre a x a',
      In x all -> Inv pre a -> f a x = Normal a' -> Inv (pre ++ [x])%list a') ->
  forall l pre acc r,
    (forall x, In x l -> In x all) ->
    Inv pre acc -> foldM f acc l = Normal r -> Inv (pre ++ l)%list r.
Proof.
  intros Hf. induction l as [|x l IH]; intros pre acc r Hall Hacc; simpl.
  - intros [= <-]. now rewrite app_nil_r.
  - intros H. apply bind_Normal in H as (a & Ha & H).
    replace (pre ++ x :: l)%list with ((pre ++ [x]) ++ l)%list
      by (now rewrite <- app_assoc).
    apply (IH (pre ++ [x])%list a r); [| |exact H].
    + intros y Hy. apply Hall. now right.
    + apply (Hf pre acc x a); [apply Hall; now left | exact Hacc | exact Ha].
Qed.

Lemma named_functional path data name name' :
  named path data name -> named path data name' -> name = name'.
Proof.
  intros (locator & Hl & Hn) (locator' & Hl' & Hn').
  rewrite Hl in Hl'. injection Hl' as <-.
  rewrite Hn in Hn'. now injection Hn' as <-.
Qed.

Lemma keyed_functional item key key' :
  keyed item key -> keyed item key' -> key = key'.
Proof.
  intros (value & Hv & Hk) (value' & Hv' & Hk').
  rewrite Hv in Hv'. injection Hv' as <-.
  rewrite Hk in Hk'. now injection Hk' as <-.
Qed.

Lemma assignNode_lookup obj name node name' :
  assignNode obj name node !! name'
  = if decide (name = name' /\ name <> "__proto__") then Some node else obj !! name'.
Proof.
  unfold assignNode. destruct (String.eqb_spec name "__proto__") as [->|Hne].
  - destruct (decide _) as [[_ H]|_]; [now elim H | reflexivity].
  - destruct (decide _) as [[-> _]|H].
    + now rewrite lookup_insert_eq.
    + rewrite lookup_insert_ne; [reflexivity |]. intros ->. now apply H.
Qed.

(** The mapping [convertValues] answers with is built as [converted]
    says, down to the deepest dependencies. *)
Lemma convertValues_converted versions : forall fuel values path g,
  convertValues fuel versions values path = Normal g ->
  converted versions values path g.
Proof.
  induction fuel as [|fuel IH]; intros values path g; simpl; [discriminate |].
  intros H.
  pose (Inv := fun (pre : list JsValue) (acc : gmap string DependencyNode) =>
    (forall name node, acc !! name = Some node ->
       name <> "__proto__"
       /\ exists earlier data later locator key children,
            pre = (earlier ++ data :: later)%list
            /\ (forall data', In data' later -> ~ named path data' name)
            /\ getProp data path = Normal locator
            /\ moduleName locator = Normal name
            /\ ToString locator = Normal key
            /\ version node = lookupVersion versions key
            /\ getProp data "children" = Normal children
            /\ (truthy children = true ->
                exists Dependencies,
                  getProp children "Dependencies" = Normal Dependencies
                  /\ converted versions Dependencies "locator" (dependencies node))
            /\ (truthy children = false -> dependencies node = ∅))
    /\ (forall data name, In data pre ->
          named path data name -> name <> "__proto__" -> is_Some (acc !! name))).
  assert (Hinv : Inv ([] ++ collectionElements values)%list g).
  { revert H. apply (foldM_prefix_invariant Inv _ (collectionElements values)).
    - intros pre obj data obj' _ [Hnodes Hfiled] Hstep.
      apply convertEntry_Normal in Hstep
        as (locator & name' & key & children & deps
            & Hloc & Hname & Hkey & Hch & Htrue & Hfalse & ->).
      split.
      + intros name node. rewrite assignNode_lookup.
        destruct (decide _) as [[-> Hproto]|Hother].
        * intros [= <-]. split; [exact Hproto |].
          exists pre, data, [], locator, key, children. simpl.
          split; [reflexivity |]. split; [intros ? [] |].
          repeat split; try assumption.
          intros Ht. destruct (Htrue Ht) as (D & HD & Hconv).
          exists D. split; [exact HD | now apply (IH D "locator")].
        * intros Hnode. destruct (Hnodes name node Hnode)
            as (Hproto & earlier & data0 & later & locator0 & key0 & children0
                & -> & Hlast & Hrest).
          split; [exact Hproto |].
          exists earlier, data0, (later ++ [data])%list, locator0, key0, children0.
          split; [now rewrite <- app_assoc |].
          split; [|exact Hrest].
          intros data' Hin. apply in_app_or in Hin as [Hin|[<-|[]]]; [now apply Hlast |].
          intros Hnamed. apply Hother.
          assert (name' = name)
            by (apply (named_functional path data); [now exists locator | exact Hnamed]).
          split; [assumption | now subst].
      + intros data' name Hin Hnamed Hproto. rewrite assignNode_lookup.
        destruct (decide _) as [_|Hother]; [eauto |].
        apply in_app_or in Hin as [Hin|[<-|[]]]; [now apply (Hfiled data') |].
        elim Hother.
        assert (name' = name) as ->
          by (apply (named_functional path data); [now exists locator | exact Hnamed]).
        now split.
    - auto.
    - split; [intros name node; now rewrite lookup_empty | intros ? ? []]. }
  destruct Hinv as [Hnodes Hfiled]. constructor; assumption.
Qed.

(** An entry of the values is filed under its name, whatever comes after
    it; nothing is ever filed under [__proto__]. *)
Lemma convertValues_files versions fuel values path g :
  convertValues fuel versions values path = Normal g ->
  g !! "__proto__" = None
  /\ forall data name,
       In data (collectionElements values) ->
       named path data name -> name <> "__proto__" -> is_Some (g !! name).
Proof.
  intros H. apply convertValues_converted in H.
  inversion H as [? ? ? Hnodes Hfiled]; subst. split; [|exact Hfiled].
  destruct (g !! "__proto__") as [node|] eqn:E; [|reflexivity].
  now destruct (Hnodes _ _ E) as [Hproto _].
Qed.

Lemma assignVersion_plain versions key v :
  key <> "__proto__" ->
  assignVersion versions key v
  = mkIndex (<[key := v]> (own versions)) (prototype versions).
Proof.
  intros Hne. unfold assignVersion.
  now destruct (String.eqb_spec key "__proto__").
Qed.

Lemma indexEntry_Normal versions item versions' :
  indexEntry versions item = Normal versions' ->
  exists value children Version key,
    getProp item "value" = Normal value
    /\ ToString value = Normal key
    /\ getProp item "children" = Normal children
    /\ getProp children "Version" = Normal Version
    /\ versions' = assignVersion versions key Version.
Proof.
  unfold indexEntry. intros H.
  apply bind_Normal in H as (value & Hvalue & H).
  apply bind_Normal in H as (children & Hch & H).
  apply bind_Normal in H as (Version & HV & H).
  apply bind_Normal in H as (key & Hkey & [= <-]).
  now exists value, children, Version, key.
Qed.

(** An assignment leaves the own properties of every other name as they
    are. *)
Lemma own_assignVersion_ne versions key' v key :
  key' <> key -> own (assignVersion versions key' v) !! key = own versions !! key.
Proof.
  intros Hne. unfold assignVersion, setPrototype.
  destruct (negb (String.eqb key' "__proto__")); simpl;
    [now rewrite lookup_insert_ne |].
  destruct (own versions !! key'); simpl; [now rewrite lookup_insert_ne |].
  destruct (prototype versions) as [| |props|l]; simpl;
    try (now rewrite lookup_insert_ne); try (now destruct v).
  destruct (assoc key' props); simpl; [now rewrite lookup_insert_ne | now destruct v].
Qed.

(** The own properties of the index.  Under a key other than
    [__proto__] (under every key, when no parsed value is indexed under
    [__proto__]) the index owns the [children.Version] of the last parsed
    value indexed under that key, and it owns nothing under a key no
    parsed value is indexed under. *)
Lemma indexPass_own parsedValues versions key :
  indexPass parsedValues = Normal versions ->
  key <> "__proto__"
  \/ (forall item, In item parsedValues -> ~ keyed item "__proto__") ->
  (forall v, own versions !! key = Some v ->
     exists earlier item later children,
       parsedValues = (earlier ++ item :: later)%list
       /\ keyed item key
       /\ (forall item', In item' later -> ~ keyed item' key)
       /\ getProp item "children" = Normal children
       /\ getProp children "Version" = Normal v)
  /\ (forall item, In item parsedValues -> keyed item key ->
        is_Some (own versions !! key)).
Proof.
  intros H Hplain. unfold indexPass in H.
  pose (Inv := fun (pre : list JsValue) (acc : VersionIndex) =>
    (forall v, own acc !! key = Some v ->
       exists earlier item later children,
         pre = (earlier ++ item :: later)%list
         /\ keyed item key
         /\ (forall item', In item' later -> ~ keyed item' key)
         /\ getProp item "children" = Normal children
         /\ getProp children "Version" = Normal v)
    /\ (forall item, In item pre -> keyed item key -> is_Some (own acc !! key))).
  cut (Inv ([] ++ parsedValues)%list versions); [intros Hinv; exact Hinv |].
  revert H. apply (foldM_prefix_invariant Inv _ parsedValues).
  - intros pre acc item acc' Hin (Hown & Hcov) Hstep.
    apply indexEntry_Normal in Hstep
      as (value & children & Version & key' & Hv & Hk & Hch & HV & ->).
    assert (Hkeyed : keyed item key') by now exists value.
    destruct (decide (key' = key)) as [->|Hother].
    + assert (Hne : key <> "__proto__").
      { destruct Hplain as [Hne|Hnone]; [exact Hne |].
        intros ->. now apply (Hnone item Hin). }
      rewrite (assignVersion_plain _ _ _ Hne). unfold Inv. simpl.
      rewrite lookup_insert_eq. split; [|eauto].
      intros v [= <-]. exists pre, item, [], children.
      repeat split; try assumption. intros ? [].
    + unfold Inv. rewrite (own_assignVersion_ne _ _ _ _ Hother). split.
      * intros v Hkey.
        destruct (Hown v Hkey)
          as (earlier & item0 & later & children0 & -> & Hk0 & Hlast & Hrest).
        exists earlier, item0, (later ++ [item])%list, children0.
        split; [now rewrite <- app_assoc |].
        split; [exact Hk0 | split; [|exact Hrest]].
        intros item' Hin'. apply in_app_or in Hin' as [Hin'|[<-|[]]]; [now apply Hlast |].
        intros Hk'. apply Hother. now apply (keyed_functional item).
      * intros item' Hin' Hk'.
        apply in_app_or in Hin' as [Hin'|[<-|[]]]; [now apply (Hcov item') |].
        elim Hother. now apply (keyed_functional item).
  - auto.
  - unfold Inv. simpl. split; [intros v; now rewrite lookup_empty | intros ? []].
Qed.


(** What the index answers for the key of the last parsed value indexed
    under it. *)
Lemma lookupVersion_last parsedValues versions earlier item later key :
  indexPass parsedValues = Normal versions ->
  parsedValues = (earlier ++ item :: later)%list ->
  keyed item key ->
  (forall item', In item' later -> ~ keyed item' key) ->
  key <> "__proto__"
  \/ (forall item, In item parsedValues -> ~ keyed item "__proto__") ->
  exists children Version,
    getProp item "children" = Normal children
    /\ getProp children "Version" = Normal Version
    /\ lookupVersion versions key = Data Version.
Proof.
  intros Hidx Hsplit Hkeyed Hlast Hplain.
  destruct (indexPass_own _ _ key Hidx Hplain) as [Hown Hcov].
  destruct (Hcov item) as [v Hv]; [subst; apply in_elt | exact Hkeyed |].
  destruct (Hown v Hv)
    as (earlier' & item' & later' & children & Hsplit' & Hk' & Hlast' & Hch & HV).
  assert (item' = item /\ True) as [-> _].
  { split; [|exact I]. rewrite Hsplit in Hsplit'. clear - Hsplit' Hkeyed Hk' Hlast Hlast'.
    revert earlier' Hsplit'.
    induction earlier as [|x earlier IH]; intros [|y earlier']; simpl; intros Heq.
    - now injection Heq as <-.
    - injection Heq as -> ->. elim (Hlast item'); [apply in_elt | exact Hk'].
    - injection Heq as <- <-. elim (Hlast' item); [apply in_elt | exact Hkeyed].
    - injection Heq as _ Heq. now apply (IH earlier'). }
  exists children, v. split; [exact Hch | split; [exact HV |]].
  unfold lookupVersion. now rewrite Hv.
Qed.



End GraphFacts.

Import GraphFacts.

(** ** Module names *)

Module NameFacts.

Import Yarn2.

Lemma split_on_no_sep sep s :
  string_forall (fun c => negb (Ascii.eqb c sep)) s = true ->
  split_on sep s = [s].
Proof.
  induction s as [|c s IH]; simpl; [reflexivity |].
  intros H. apply andb_prop in H as [Hc Hs].
  apply negb_true_iff in Hc. rewrite Hc, (IH Hs). reflexivity.
Qed.

Lemma split_on_first sep s r :
  string_forall (fun c => negb (Ascii.eqb c sep)) s = true ->
  split_on sep (s +:+ String sep r) = s :: split_on sep r.
Proof.
  induction s as [|c s IH]; simpl.
  - intros _. now rewrite Ascii.eqb_refl.
  - intros H. apply andb_prop in H as [Hc Hs].
    apply negb_true_iff in Hc. rewrite Hc, (IH Hs). reflexivity.
Qed.

(** Every string is a piece without at sign followed by nothing or by an
    at sign and more. *)
Lemma split_at_first_at s :
  exists name rest,
    s = name +:+ rest /\ string_forall not_at name = true
    /\ (rest = "" \/ exists r, rest = String at_sign r).
Proof.
  induction s as [|c s (name & rest & Hs & Hname & Hrest)].
  - exists "", "". repeat split. now left.
  - destruct (Ascii.eqb c at_sign) eqn:Hc.
    + apply Ascii.eqb_eq in Hc as ->.
      exists "", (String at_sign s). repeat split. right. now exists s.
    + exists (String c name), rest. simpl. unfold not_at at 1. rewrite Hc, Hname.
      repeat split; [now rewrite Hs | exact Hrest].
Qed.

(** The name of a scoped module: the at sign and what follows it up to the
    next at sign. *)
Lemma moduleName_scoped name rest :
  string_forall not_at name = true ->
  (rest = "" \/ exists r, rest = String at_sign r) ->
  moduleName (JStr (String at_sign (name +:+ rest))) = Normal (String at_sign name).
Proof.
  intros Hname Hrest. unfold moduleName, split, startsWith. simpl.
  destruct Hrest as [->|[r ->]].
  - rewrite string_app_nil_r, (split_on_no_sep at_sign name Hname). reflexivity.
  - rewrite (split_on_first at_sign name r Hname). reflexivity.
Qed.

End NameFacts.

Import NameFacts.

(** ** getProdDependencies *)

Module ListingTheorems.

Import Yarn2.

(** C2 (the code departs from it).  A parsed value without [children]
    makes the index pass throw: the stage ends with a TypeError, not with
    a graph.  One level down the same gap is tolerated: a dependency
    without [children] becomes a node of undefined version. *)
Theorem buildGraph_throws_on_value_without_children :
  buildGraph [JObj [("value", JStr "a@npm:1.0.0")]] = TypeError
  /\ buildGraph
       [JObj [("value", JStr "a@npm:1.0.0");
              ("children",
               JObj [("Dependencies",
                      JArr [JObj [("locator", JStr "b@npm:2.0.0")]])])]]
     = Normal (mkGraph []
                 {[ "a" := mkNode JUndefined
                             {[ "b" := mkNode JUndefined ∅ ]} ]}).
Proof. split; vm_compute; reflexivity. Qed.

(** C4.  A locator that starts with an at sign stands for the module
    named by the at sign and what follows it up to the next at sign, and
    the entry is filed under that name: the mapping [convertValues] answers
    with, at the first level and below, and so the graph of [buildGraph],
    has that name as a key, the scope kept.  No key of the mapping is
    anything but the name of one of its entries.  So [@scope/name@1.0.0]
    and [@scope/name@^1.0.0::locator=root%40workspace%3A.] both give the
    key [@scope/name]. *)
Theorem scoped_locator_keeps_scope_in_key :
  (forall s : string,
      exists name rest,
        s = name +:+ rest
        /\ string_forall not_at name = true
        /\ (rest = "" \/ exists r, rest = String at_sign r)
        /\ moduleName (JStr (String at_sign s)) = Normal (String at_sign name)
        /\ (forall convert versions path obj data obj',
              getProp data path = Normal (JStr (String at_sign s)) ->
              convertEntry convert versions path obj data = Normal obj' ->
              exists node, obj' = <[String at_sign name := node]> obj)
        /\ (forall fuel versions values path g data,
              convertValues fuel versions values path = Normal g ->
              In data (collectionElements values) ->
              getProp data path = Normal (JStr (String at_sign s)) ->
              is_Some (g !! String at_sign name))
        /\ (forall parsedValues g item,
              buildGraph parsedValues = Normal g ->
              In item parsedValues ->
              getProp item "value" = Normal (JStr (String at_sign s)) ->
              is_Some (graph_dependencies g !! String at_sign name)))
  /\ (forall fuel versions values path g key,
        convertValues fuel versions values path = Normal g ->
        is_Some (g !! key) ->
        exists data locator,
          In data (collectionElements values)
          /\ getProp data path = Normal locator
          /\ moduleName locator = Normal key)
  /\ moduleName (JStr "@scope/name@1.0.0") = Normal "@scope/name"
  /\ moduleName (JStr "@scope/name@^1.0.0::locator=root%40workspace%3A.")
     = Normal "@scope/name".
Proof.
  split; [|split; [|split; reflexivity]].
  - intros s. destruct (split_at_first_at s) as (name & rest & -> & Hname & Hrest).
    exists name, rest.
    pose proof (moduleName_scoped name rest Hname Hrest) as Hmod.
    assert (Hfiled : forall fuel versions values path g data,
              convertValues fuel versions values path = Normal g ->
              In data (collectionElements values) ->
              getProp data path = Normal (JStr (String at_sign (name +:+ rest))) ->
              is_Some (g !! String at_sign name)).
    { intros fuel versions values path g data Hconv Hin Hloc.
      apply convertValues_files in Hconv as [_ Hfiled].
      apply (Hfiled data); [exact Hin | | discriminate].
      exists (JStr (String at_sign (name +:+ rest))). now split. }
    repeat split; try assumption.
    + intros convert versions path obj data obj' Hloc Hstep.
      apply convertEntry_Normal in Hstep
        as (locator & name' & key & children & deps
            & Hloc' & Hname' & _ & _ & _ & _ & ->).
      rewrite Hloc in Hloc'. injection Hloc' as <-.
      rewrite Hmod in Hname'. injection Hname' as <-.
      eexists; reflexivity.
    + intros parsedValues g item Hg Hin Hloc. unfold buildGraph in Hg.
      apply bind_Normal in Hg as (versions & _ & Hg).
      apply bind_Normal in Hg as (deps & Hconv & [= <-]). simpl.
      now apply (Hfiled _ _ _ _ _ item Hconv).
  - intros fuel versions values path g key Hconv [node Hnode].
    apply convertValues_converted in Hconv.
    inversion Hconv as [? ? ? Hnodes _]; subst.
    destruct (Hnodes key node Hnode)
      as (_ & earlier & data & later & locator & k & children
          & Hsplit & _ & Hloc & Hname & _).
    exists data, locator. rewrite Hsplit.
    split; [apply in_elt | now split].
Qed.


Section Listing.

Variable splitLines : string -> list string.
Variable safeJsonParse : string -> JsValue.

Lemma filter_counts_idem lines :
  List.filter (fun v => negb (isEmpty v))
              (map safeJsonParse (List.filter (counts safeJsonParse) lines))
  = List.filter (fun v => negb (isEmpty v)) (map safeJsonParse lines).
Proof.
  induction lines as [|l lines IH]; simpl; [reflexivity |].
  unfold counts at 1.
  destruct (negb (isEmpty (safeJsonParse l))) eqn:E; simpl; rewrite ?E, IH; reflexivity.
Qed.

(** C6.  When the lines of [cleaned] are the lines of [stdout] that count,
    in the same order, the chain settles on [cleaned] exactly as it does
    on [stdout]: the lines that parse to nothing or to an empty value are
    passed over. *)
Theorem garbage_lines_are_skipped (stdout cleaned : string) :
  splitLines cleaned = List.filter (counts safeJsonParse) (splitLines stdout) ->
  parseOutput splitLines safeJsonParse cleaned
  = parseOutput splitLines safeJsonParse stdout.
Proof.
  intros H. unfold parseOutput, parsedValuesOf.
  now rewrite H, filter_counts_idem.
Qed.

(** The catch handler lets a failed listing through when no line of
    stderr is critical and stdout is not empty. *)
Lemma recover_benign stdout stderr :
  failedBy stderr = false -> stdout <> "" ->
  getProdDependencies splitLines safeJsonParse (Rejected (SpawnError stdout stderr))
  = parseOutput splitLines safeJsonParse stdout.
Proof.
  intros Hf Hs. unfold getProdDependencies, recover. rewrite Hf.
  unfold string_isEmpty. destruct (String.eqb_spec stdout ""); [contradiction |].
  reflexivity.
Qed.

(** The promise of [getProdDependencies] settles whenever the promise of
    the process runner does. *)
Lemma getProdDependencies_settles spawned :
  spawned <> Unsettled ->
  getProdDependencies splitLines safeJsonParse spawned <> Unsettled.
Proof.
  assert (Hparse : forall stdout,
            parseOutput splitLines safeJsonParse stdout <> Unsettled).
  { intros stdout. unfold parseOutput.
    pose proof (buildGraph_not_OutOfFuel
                  (parsedValuesOf splitLines safeJsonParse stdout)) as H.
    now destruct (buildGraph _). }
  intros Hs. unfold getProdDependencies.
  destruct spawned as [stdout|err|]; [apply Hparse | | contradiction].
  unfold recover. destruct err as [stdout stderr| |]; try easy.
  destruct (negb (failedBy stderr) && negb (string_isEmpty stdout));
    [apply Hparse | easy].
Qed.

(** C7 (the code departs from it).  After a failed listing with an empty
    stderr the chain goes on with stdout, and then throws as in C2 when
    stdout holds a record without [children]: the promise is rejected with
    a TypeError, it is not fulfilled with a graph. *)
Theorem recovered_listing_may_still_reject (stdout : string) (record : JsValue) :
  stdout <> "" ->
  parsedValuesOf splitLines safeJsonParse stdout = [record] ->
  getProp record "children" = Normal JUndefined ->
  getProdDependencies splitLines safeJsonParse (Rejected (SpawnError stdout ""))
  = Rejected ThrownTypeError.
Proof.
  intros Hs Hp Hc. rewrite recover_benign; [|reflexivity | exact Hs].
  unfold parseOutput. rewrite Hp.
  unfold buildGraph, indexPass. simpl. unfold indexEntry.
  destruct (getProp record "value") as [value| |] eqn:Hv; simpl;
    [|reflexivity | now elim (getProp_not_OutOfFuel record "value")].
  rewrite Hc. reflexivity.
Qed.

End Listing.

(** Lines that end at a line feed: splitting the joined lines gives the
    lines back. *)
Lemma split_on_concat lines :
  lines <> [] ->
  Forall (fun l => string_forall (fun c => negb (Ascii.eqb c LF)) l = true) lines ->
  split_on LF (String.concat (String LF "") lines) = lines.
Proof.
  intros Hne H. induction H as [|l lines Hl Hlines IH]; [easy |].
  destruct lines as [|l' lines'].
  - simpl. now apply split_on_no_sep.
  - change (String.concat (String LF "") (l :: l' :: lines'))
      with (l +:+ String LF (String.concat (String LF "") (l' :: lines'))).
    rewrite (split_on_first LF l _ Hl), IH; [reflexivity | easy].
Qed.

(** C6 on the text itself, for lines that end at a line feed and a parser
    for which the empty line does not count: the listing settles on the
    text without the lines that do not count as it does on the whole
    text. *)
Lemma garbage_lines_are_skipped_in_text safeJsonParse lines :
  Forall (fun l => string_forall (fun c => negb (Ascii.eqb c LF)) l = true) lines ->
  isEmpty (safeJsonParse "") = true ->
  parseOutput (split_on LF) safeJsonParse
    (String.concat (String LF "") (List.filter (counts safeJsonParse) lines))
  = parseOutput (split_on LF) safeJsonParse (String.concat (String LF "") lines).
Proof.
  intros Hlines Hempty. unfold parseOutput, parsedValuesOf. f_equal. f_equal.
  assert (Hnil : List.filter (fun v => negb (isEmpty v))
                   (map safeJsonParse (split_on LF "")) = []).
  { simpl. now rewrite Hempty. }
  destruct lines as [|l lines]; [reflexivity |].
  rewrite (split_on_concat (l :: lines)) by easy.
  rewrite <- (filter_counts_idem safeJsonParse (l :: lines)).
  destruct (List.filter (counts safeJsonParse) (l :: lines)) as [|k kept] eqn:E.
  - exact Hnil.
  - rewrite split_on_concat; [reflexivity | easy |].
    rewrite <- E. apply List.Forall_forall. intros x Hx.
    apply filter_In in Hx as [Hx _].
    now apply (proj1 (List.Forall_forall _ _) Hlines).
Qed.

End ListingTheorems.

(** ** rebaseLockfile on the samples *)

Module RebaseExamples.

Import Yarn2 Samples RebaseTheorems.

(** A text in which the search finds nothing holds no reference. *)
Lemma search_none_no_reference l :
  search fileVersionMatcher l 0 = None ->
  forall pre m cap post,
    l = pre +:+ m +:+ post -> ~ matches fileVersionMatcher m None cap.
Proof.
  intros Hnone pre m cap post -> Hm.
  destruct (search_complete fileVersionMatcher pre m cap post 0 Hm) as [res Hres].
  congruence.
Qed.

(** C1 (the code departs from it).  Line 123 rewrites the first occurrence
    of [oldRef] in the text so far, not every occurrence.  Of two
    references to [./x] the first is rebased twice and the second not at
    all; a later plain occurrence of a rebased path stays as it is.  A
    substitution of every occurrence gives another text in both cases. *)
Theorem rebaseLockfile_rewrites_first_occurrence_only :
  rebaseLockfile "r" lockfile_with_repeated_path = Some "a@r/r/./x: b@./x:"
  /\ rebaseLockfile_global "r" lockfile_with_repeated_path
     = Some "a@r/r/./x: b@r/r/./x:"
  /\ rebaseLockfile "r" lockfile_with_plain_occurrence = Some "a@r/./x: see ./x"
  /\ rebaseLockfile_global "r" lockfile_with_plain_occurrence
     = Some "a@r/./x: see r/./x".
Proof. repeat split; vm_compute; reflexivity. Qed.

Lemma reference_is_relative_path_before_terminator_witness :
  exists pre c file t post,
    lockfile_with_reference
    = pre +:+ String c (String at_sign (file +:+ "../local-dep" +:+ String t post))
    /\ (file = "" \/ file = "file:")
    /\ (exists body, "../local-dep" = "./" +:+ body \/ "../local-dep" = "../" +:+ body)
    /\ (t = dquote \/ t = slash \/ t = colon \/ t = comma).
Proof.
  apply (reference_is_relative_path_before_terminator
           "packages/svc" lockfile_with_reference
           [mkReplacement "../local-dep" "packages/svc/../local-dep"]
           (mkReplacement "../local-dep" "packages/svc/../local-dep")).
  - vm_compute; reflexivity.
  - left; reflexivity.
Defined.

Lemma newRef_is_slashed_root_and_oldRef_witness :
  "packages/svc/../local-dep" = slashify ("packages\svc" +:+ "/" +:+ "../local-dep").
Proof.
  apply (newRef_is_slashed_root_and_oldRef
           "packages\svc" lockfile_with_reference
           [mkReplacement "../local-dep" "packages/svc/../local-dep"]
           (mkReplacement "../local-dep" "packages/svc/../local-dep")).
  - vm_compute; reflexivity.
  - left; reflexivity.
Defined.

Lemma rebaseLockfile_total_identity_without_reference_witness :
  rebaseLockfile "packages/svc" lockfile_without_reference
  = Some lockfile_without_reference.
Proof.
  destruct (rebaseLockfile_total_identity_without_reference
              "packages/svc" lockfile_without_reference) as (out & Hout & Hid).
  rewrite Hout. f_equal. apply Hid.
  apply search_none_no_reference. vm_compute; reflexivity.
Defined.

(** C10 as it was stated fails: the path after [/@] is not the path of a
    reference the loop collects, and yet it is rewritten, being the first
    occurrence of the path that the reference [b@./a:] names. *)
Lemma path_after_slash_at_is_rewritten :
  replacements "r" lockfile_with_slash_at = Some [mkReplacement "./a" "r/./a"]
  /\ lockfile_with_slash_at = "/@./a:" +:+ " b@./a:"
  /\ rebaseLockfile "r" lockfile_with_slash_at = Some ("/@r/./a:" +:+ " b@./a:").
Proof. repeat split; vm_compute; reflexivity. Qed.

(** References that yield no pair, in lockfiles that hold nothing else to
    collect or a reference to another path: at the start of the text, after
    a double quote, after a slash. *)
Example uncollected_references_are_kept :
  rebaseLockfile "packages/svc" lockfile_with_quoted_at = Some lockfile_with_quoted_at
  /\ rebaseLockfile "r" (quoted "@file:../x" +:+ ": acorn@^2.1.0:")
     = Some (quoted "@file:../x" +:+ ": acorn@^2.1.0:")
  /\ rebaseLockfile "r" "@./a: b@./c:" = Some "@./a: b@r/./c:"
  /\ rebaseLockfile "r" "x/@./a: b@./c:" = Some "x/@./a: b@r/./c:"
  /\ rebaseLockfile "r" lockfile_mixed
     = Some (quoted "@file:../x" +:+ ": pkg@file:r/../y:").
Proof. repeat split; vm_compute; reflexivity. Qed.

End RebaseExamples.

(** ** getProdDependencies on the samples *)

Module ListingExamples.

Import Yarn2 Samples ListingTheorems.

(** The graph of the two sample records. *)
Example buildGraph_samples :
  buildGraph [record_scoped; record_plain]
  = Normal (mkGraph []
              {[ "@scope/name" := mkNode (JStr "1.0.0")
                                    {[ "a" := mkNode (JStr "1.0.1") ∅ ]};
                 "a" := mkNode (JStr "1.0.1") ∅ ]}).
Proof. vm_compute; reflexivity. Qed.

Lemma scoped_locator_keeps_scope_in_key_witness :
  exists name g,
    string_forall not_at name = true
    /\ moduleName (JStr "@scope/name@npm:1.0.0") = Normal (String at_sign name)
    /\ buildGraph [record_scoped; record_plain] = Normal g
    /\ is_Some (graph_dependencies g !! String at_sign name).
Proof.
  destruct (proj1 scoped_locator_keeps_scope_in_key "scope/name@npm:1.0.0")
    as (name & rest & _ & Hname & _ & Hmod & _ & _ & Hgraph).
  exists name. eexists.
  split; [exact Hname | split; [exact Hmod | split; [exact buildGraph_samples |]]].
  apply (Hgraph [record_scoped; record_plain] _ record_scoped buildGraph_samples);
    [now left | reflexivity].
Defined.



(** A dependency whose locator is a name [Object.prototype] defines holds
    the member of that name. *)
Example unresolved_constructor_reads_builtin :
  buildGraph
    [JObj [("value", JStr "a@npm:1.0.0");
           ("children",
            JObj [("Version", JStr "1.0.0");
                  ("Dependencies",
                   JArr [JObj [("locator", JStr "constructor")]])])]]
  = Normal (mkGraph []
              {[ "a" := mkNode (JStr "1.0.0")
                          {[ "constructor"
                             := mkNode (ObjectPrototypeMember "constructor") ∅ ]} ]}).
Proof. vm_compute; reflexivity. Qed.

Lemma garbage_lines_are_skipped_witness :
  parseOutput sample_splitLines sample_safeJsonParse line_plain
  = parseOutput sample_splitLines sample_safeJsonParse
      ("yarn: not json" +:+ String LF (line_plain +:+ String LF "")).
Proof.
  apply (garbage_lines_are_skipped sample_splitLines sample_safeJsonParse).
  vm_compute; reflexivity.
Defined.

Lemma recovered_listing_may_still_reject_witness :
  getProdDependencies sample_splitLines sample_safeJsonParse
    (Rejected (SpawnError line_message ""))
  = Rejected ThrownTypeError.
Proof.
  apply (recovered_listing_may_still_reject
           sample_splitLines sample_safeJsonParse line_message record_message).
  - discriminate.
  - vm_compute; reflexivity.
  - reflexivity.
Defined.

(** With records that have their [children], the recovered listing is
    fulfilled with the graph. *)
Example recovered_listing_fulfilled :
  getProdDependencies sample_splitLines sample_safeJsonParse
    (Rejected (SpawnError line_plain ""))
  = Fulfilled (mkGraph [] {[ "a" := mkNode (JStr "1.0.1") ∅ ]}).
Proof. vm_compute; reflexivity. Qed.

(** A line on stderr keeps the failure. *)
Example critical_listing_rejected :
  getProdDependencies sample_splitLines sample_safeJsonParse
    (Rejected (SpawnError line_plain "Usage Error: no project found"))
  = Rejected (SpawnError line_plain "Usage Error: no project found").
Proof. vm_compute; reflexivity. Qed.

End ListingExamples.

(** * Further properties *)

(** ** The scan of rebaseLockfile *)

Module RebaseScan.

Import Yarn2 RebaseTheorems.

Lemma lazy_star_shortest p : forall s acc k res,
  lazy_star p s acc k = Some res ->
  exists m s',
    s = m +:+ s' /\ string_forall p m = true /\ k (acc +:+ m) s' = Some res
    /\ forall m1 c m2, m = m1 +:+ String c m2 ->
         k (acc +:+ m1) (String c m2 +:+ s') = None.
Proof.
  assert (Hnil : forall m1 c m2, "" = m1 +:+ String c m2 -> False)
    by (intros [|? ?] ? ? ?; discriminate).
  induction s as [|c s IH]; intros acc k res; simpl.
  - destruct (k acc "") eqn:E; [|discriminate]. intros [= <-].
    exists "", "". rewrite (string_app_nil_r acc).
    split; [reflexivity | split; [reflexivity | split; [exact E |]]].
    intros m1 c m2 H. now elim (Hnil m1 c m2).
  - destruct (k acc (String c s)) eqn:E.
    + intros [= <-]. exists "", (String c s). rewrite (string_app_nil_r acc).
      split; [reflexivity | split; [reflexivity | split; [exact E |]]].
      intros m1 c' m2 H. now elim (Hnil m1 c' m2).
    + destruct (p c) eqn:Hp; [|discriminate]. intros H.
      apply IH in H as (m & s' & -> & Hm & Hk & Hmin).
      exists (String c m), s'. simpl. rewrite Hp, Hm.
      rewrite string_app_assoc in Hk. simpl in Hk.
      split; [reflexivity | split; [reflexivity | split; [exact Hk |]]].
      intros [|d m1] c' m2 Heq; simpl in Heq; injection Heq as -> ->.
      * rewrite (string_app_nil_r acc). exact E.
      * specialize (Hmin m1 c' m2 eq_refl).
        rewrite string_app_assoc in Hmin. exact Hmin.
Qed.

Lemma run_seq_sound r1 r2 s cap k res :
  run (Seq r1 r2) s cap k = Some res ->
  exists m1 cap1 s1,
    s = m1 +:+ s1 /\ matches r1 m1 cap cap1
    /\ run r2 s1 cap1 (fun m2 cap2 s2 => k (m1 +:+ m2) cap2 s2) = Some res.
Proof. simpl. apply run_sound. Qed.

Lemma string_forall_split p m :
  (forall m1 c m2, m = m1 +:+ String c m2 -> p c = true) ->
  string_forall p m = true.
Proof.
  induction m as [|c m IH]; intros H; simpl; [reflexivity |].
  rewrite (H "" c m eq_refl). simpl. apply IH.
  intros m1 d m2 ->. apply (H (String c m1) d m2). reflexivity.
Qed.

Lemma match_here_shortest s res :
  match_here fileVersionMatcher s = Some res ->
  exists c file head body t,
    matched res = String c (String at_sign (file +:+ (head +:+ body) +:+ String t ""))
    /\ capture res = Some (head +:+ body)
    /\ (head = "./" \/ head = "../")
    /\ string_forall dot body = true
    /\ string_forall (fun x => negb (terminator x)) body = true.
Proof.
  unfold match_here, fileVersionMatcher. intros H.
  apply run_seq_sound in H as (m1 & cap1 & s1 & -> & H1 & H).
  apply matches_class_inv in H1 as (c & -> & Hc & ->).
  apply run_seq_sound in H as (m2 & cap2 & s2 & -> & H2 & H).
  apply matches_lit in H2 as [-> ->].
  apply run_seq_sound in H as (file & cap3 & s3 & -> & H3 & H).
  change (run (Seq (Group ?g) ?t) ?s ?cp ?k) with
    (run g s cp (fun m _ s' =>
       run t s' (Some m) (fun m2 cap2 s2 => k (m +:+ m2) cap2 s2))) in H.
  apply run_seq_sound in H as (head & cap4 & s4 & -> & H4 & H).
  simpl in H. apply lazy_star_shortest in H as (body & s5 & -> & Hdot & Hk & Hmin).
  destruct s5 as [|t s5]; simpl in Hk; [inversion Hk |].
  destruct (_ || _) eqn:Ht in Hk; [|discriminate Hk].
  injection Hk as <-. simpl.
  exists c, file, head, body, t.
  split; [now rewrite !string_app_assoc | split; [reflexivity | split; [|split; [exact Hdot|]]]].
  - apply matches_alt_inv in H4 as [H4|H4];
      apply matches_lits in H4 as [-> _]; try easy; [now left | now right].
  - apply string_forall_split. intros b1 x b2 ->.
    specialize (Hmin b1 x b2 eq_refl). simpl in Hmin.
    unfold terminator.
    destruct (Ascii.eqb x dquote || Ascii.eqb x colon || Ascii.eqb x comma);
      [discriminate Hmin | reflexivity].
Qed.

(** The first start position at which the regex matches. *)
Lemma search_first r : forall s i j res,
  search r s i = Some (j, res) ->
  exists n, j = i + n /\ n <= String.length s
            /\ match_here r (string_drop n s) = Some res
            /\ forall n', n' < n -> match_here r (string_drop n' s) = None.
Proof.
  induction s as [|c s IH]; intros i j res; simpl.
  - destruct (match_here r "") eqn:E; [|discriminate].
    intros [= <- <-]. exists 0. rewrite Nat.add_0_r.
    split; [reflexivity | split; [simpl; lia | split; [exact E | intros; lia]]].
  - destruct (match_here r (String c s)) eqn:E.
    + intros [= <- <-]. exists 0. rewrite Nat.add_0_r.
      split; [reflexivity | split; [simpl; lia | split; [exact E | intros; lia]]].
    + intros H. apply IH in H as (n & -> & Hn & H & Hfirst).
      exists (S n). split; [lia | split; [simpl; lia | split; [exact H |]]].
      intros [|n'] Hlt; [exact E | apply Hfirst; lia].
Qed.

Lemma search_None r : forall s i,
  search r s i = None ->
  forall n, n <= String.length s -> match_here r (string_drop n s) = None.
Proof.
  induction s as [|c s IH]; intros i; simpl.
  - destruct (match_here r "") eqn:E; [discriminate |].
    intros _ [|n] Hn; [exact E | simpl in Hn; lia].
  - destruct (match_here r (String c s)) eqn:E; [discriminate |].
    intros H [|n] Hn; [exact E |]. simpl. apply (IH _ H). simpl in Hn. lia.
Qed.

(** Where the matcher finds nothing, the text holds no reference. *)
Lemma no_match_no_reference l j m :
  match_here fileVersionMatcher (string_drop j l) = None -> ~ reference_at l j m.
Proof.
  intros Hnone (_ & Hdrop & Hm).
  destruct (match_here_complete fileVersionMatcher (matched m) (capture m) (rest m) Hm)
    as [res Hres].
  rewrite <- Hdrop in Hres. congruence.
Qed.

Lemma exec_first l lastIndex m lastIndex' :
  exec fileVersionMatcher l lastIndex = (Some m, lastIndex') ->
  exists j, lastIndex <= j /\ reference_at l j m
            /\ match_here fileVersionMatcher (string_drop j l) = Some m
            /\ lastIndex' = j + String.length (matched m)
            /\ forall j' m', lastIndex <= j' -> j' < j -> ~ reference_at l j' m'.
Proof.
  unfold exec. destruct (Nat.ltb_spec (String.length l) lastIndex) as [|Hle];
    [discriminate |].
  destruct (search _ _ _) as [[i m0]|] eqn:E; [|discriminate].
  intros [= -> <-]. apply search_first in E as (n & -> & Hn & E & Hfirst).
  rewrite string_drop_length in Hn. rewrite string_drop_drop in E.
  pose proof E as E'. apply match_here_sound in E' as [E1 E2].
  exists (lastIndex + n).
  split; [lia | split; [|split; [exact E | split; [reflexivity |]]]].
  - unfold reference_at. repeat split; auto; lia.
  - intros j' m' Hj' Hlt. apply no_match_no_reference.
    replace j' with (lastIndex + (j' - lastIndex)) by lia.
    rewrite <- string_drop_drop. apply Hfirst. lia.
Qed.

Lemma exec_last l lastIndex n :
  exec fileVersionMatcher l lastIndex = (None, n) ->
  forall j m, lastIndex <= j -> ~ reference_at l j m.
Proof.
  intros E j m Hj Href. pose proof Href as (Hjl & _).
  apply exec_None in E as [E|E]; [lia |].
  revert Href. apply no_match_no_reference.
  replace j with (lastIndex + (j - lastIndex)) by lia.
  rewrite <- string_drop_drop. apply (search_None _ _ _ E).
  rewrite string_drop_length. lia.
Qed.

(** The loop of lines 115-120 is the scan. *)
Lemma collect_scanned p l : forall fuel lastIndex rs,
  collect fuel p l lastIndex = Some rs -> scanned p l lastIndex rs.
Proof.
  induction fuel as [|fuel IH]; intros lastIndex rs; simpl; [discriminate |].
  destruct (exec fileVersionMatcher l lastIndex) as [[m|] li'] eqn:E.
  - destruct (collect fuel p l li') as [rs'|] eqn:E'; [|discriminate].
    intros [= <-].
    apply exec_first in E as (j & Hj & Href & _ & -> & Hfirst).
    apply (scanned_next p l lastIndex j m rs' Hj Href Hfirst).
    now apply IH.
  - intros [= <-]. apply scanned_end. now apply (exec_last l lastIndex li').
Qed.

Lemma scanned_bound p l : forall lastIndex rs,
  scanned p l lastIndex rs ->
  5 * List.length rs <= String.length l - lastIndex.
Proof.
  intros lastIndex rs H. induction H as [li _|li j m rs Hj Href _ _ IH]; simpl; [lia |].
  pose proof Href as (Hjl & Hdrop & Hm).
  apply reference_at_bounds in Href as [_ Hle].
  apply fileVersionMatcher_shape in Hm
    as (c & file & head & body & t & Hmatched & _ & _ & _ & _ & Hhead & _).
  assert (5 <= String.length (matched m)).
  { rewrite Hmatched. simpl. rewrite !string_length_app. simpl.
    destruct Hhead as [->| ->]; simpl; lia. }
  lia.
Qed.


Lemma collect_matched p l : forall fuel lastIndex rs r,
  collect fuel p l lastIndex = Some rs -> In r rs ->
  exists j m, match_here fileVersionMatcher (string_drop j l) = Some m
    /\ oldRef r = group1 m
    /\ newRef r = slashify (p +:+ "/" +:+ group1 m).
Proof.
  induction fuel as [|fuel IH]; intros lastIndex rs r; simpl; [discriminate |].
  destruct (exec fileVersionMatcher l lastIndex) as [[m|] li'] eqn:E.
  - destruct (collect fuel p l li') as [rs'|] eqn:E'; [|discriminate].
    intros [= <-] [<-|Hin].
    + apply exec_first in E as (j & _ & _ & Hm & _). now exists j, m.
    + now apply (IH _ _ _ E' Hin).
  - intros [= <-] [].
Qed.

Lemma slashify_no_backslash s :
  string_forall (fun c => negb (Ascii.eqb c backslash)) (slashify s) = true.
Proof.
  induction s as [|c s IH]; simpl; [reflexivity |].
  unfold slashify in IH. rewrite IH, andb_true_r.
  destruct (Ascii.eqb c backslash) eqn:E; [reflexivity | now rewrite E].
Qed.

Lemma slashify_length s : String.length (slashify s) = String.length s.
Proof. induction s as [|c s IH]; simpl; [reflexivity | now rewrite <- IH]. Qed.

(** X1.  The path captured for a pair stops at the first terminator and
    stays on one line: no [oldRef] holds a double quote, a colon, a comma,
    a line feed or a carriage return. *)
Theorem oldRef_stops_at_first_terminator
    (pathToPackageRoot lockfile : string) (rs : list Replacement) (r : Replacement) :
  replacements pathToPackageRoot lockfile = Some rs -> In r rs ->
  string_forall (fun c => dot c && negb (terminator c)) (oldRef r) = true.
Proof.
  intros Hrs Hin.
  destruct (collect_matched _ _ _ _ _ _ Hrs Hin) as (j & m & Hm & Hold & _).
  apply match_here_shortest in Hm
    as (c & file & head & body & t & _ & Hcap & Hhead & Hdot & Hterm).
  rewrite Hold. unfold group1. rewrite Hcap, string_forall_app.
  apply andb_true_intro. split.
  - destruct Hhead as [->| ->]; reflexivity.
  - clear -Hdot Hterm. induction body as [|x body IH]; simpl in *; [reflexivity |].
    apply andb_prop in Hdot as [-> Hdot]. apply andb_prop in Hterm as [-> Hterm].
    simpl. now apply IH.
Qed.

(** X2.  No [newRef] holds a backslash, whatever the package root and
    the captured path hold, and it is as long as the root, one slash and
    the [oldRef] together. *)
Theorem newRef_has_no_backslash
    (pathToPackageRoot lockfile : string) (rs : list Replacement) (r : Replacement) :
  replacements pathToPackageRoot lockfile = Some rs -> In r rs ->
  string_forall (fun c => negb (Ascii.eqb c backslash)) (newRef r) = true
  /\ String.length (newRef r)
     = String.length pathToPackageRoot + 1 + String.length (oldRef r).
Proof.
  intros Hrs Hin.
  destruct (collect_matched _ _ _ _ _ _ Hrs Hin) as (j & m & _ & Hold & ->).
  split; [apply slashify_no_backslash |].
  rewrite slashify_length, Hold, !string_length_app. simpl. lia.
Qed.

(** X3.  The pairs are those of a scan from left to right: each comes
    from the leftmost reference that starts at or after the end of the
    reference before it, and no reference starts after the end of the last
    one.  A reference takes five code units at least, so the pairs are at
    most a fifth of the length of the lockfile. *)
Theorem replacements_are_the_leftmost_scan (pathToPackageRoot lockfile : string) :
  exists rs,
    replacements pathToPackageRoot lockfile = Some rs
    /\ scanned pathToPackageRoot lockfile 0 rs
    /\ 5 * List.length rs <= String.length lockfile.
Proof.
  destruct (collect_total pathToPackageRoot lockfile
              (S (String.length lockfile)) 0) as [rs Hrs]; [lia |].
  exists rs. split; [exact Hrs |].
  apply collect_scanned in Hrs. split; [exact Hrs |].
  apply scanned_bound in Hrs. lia.
Qed.

(** X4.  A pair is collected exactly when some text inside the lockfile
    matches the reference pattern. *)
Theorem pair_collected_iff_reference (pathToPackageRoot lockfile : string) :
  (exists pre m cap post,
      lockfile = pre +:+ m +:+ post /\ matches fileVersionMatcher m None cap)
  <-> exists r rs, replacements pathToPackageRoot lockfile = Some (r :: rs).
Proof.
  split.
  - intros (pre & m & cap & post & Hl & Hm).
    destruct (collect_total pathToPackageRoot lockfile
                (S (String.length lockfile)) 0) as [rs Hrs]; [lia |].
    destruct rs as [|r rs]; [|now exists r, rs].
    now elim (collect_cons pathToPackageRoot lockfile pre m cap post Hl Hm).
  - intros (r & rs & Hrs).
    destruct (collect_In pathToPackageRoot lockfile _ 0 _ r Hrs (or_introl eq_refl))
      as (j & m & _ & (Hj & Hdrop & Hm) & _).
    destruct (string_split_at lockfile j Hj) as (pre & Hpre & _).
    exists pre, (matched m), (capture m), (rest m).
    split; [now rewrite <- Hdrop | exact Hm].
Qed.

(** X5.  With one pair collected and no dollar sign in its [newRef], the
    result is the lockfile with the first occurrence of [oldRef] replaced
    by [newRef], and nothing else changed. *)
Theorem single_reference_is_rebased_in_place
    (pathToPackageRoot lockfile : string) (r : Replacement) :
  replacements pathToPackageRoot lockfile = Some [r] ->
  string_forall (fun c => negb (Ascii.eqb c dollar)) (newRef r) = true ->
  exists before after,
    lockfile = before +:+ oldRef r +:+ after
    /\ (forall b a, lockfile = b +:+ oldRef r +:+ a ->
                    String.length before <= String.length b)
    /\ rebaseLockfile pathToPackageRoot lockfile
       = Some (before +:+ newRef r +:+ after).
Proof.
  intros Hrs Hplain. unfold rebaseLockfile. rewrite Hrs. simpl.
  destruct (replace_first_occurrence lockfile (oldRef r) (newRef r))
    as [(before & after & Hl & Hfirst & Hrep)|[Hnone _]].
  - exists before, after. split; [exact Hl | split; [exact Hfirst |]].
    now rewrite Hrep, GetSubstitution_plain.
  - destruct (replacement_origin _ _ _ _ Hrs (or_introl eq_refl))
      as (pre & c & file & head & body & t & post & Hl & _).
    exfalso. apply (Hnone (pre +:+ String c (String at_sign file)) (String t post)).
    rewrite Hl at 1. rewrite !string_app_assoc. simpl.
    now rewrite ?string_app_assoc.
Qed.

End RebaseScan.

Import RebaseScan.

(** ** What the substitution leaves alone *)

Module RebaseStretch.

Import Yarn2 RebaseTheorems.

(** Two ways of cutting one text in two: one cut comes first, and a piece
    [w] lies between the cuts. *)
Lemma string_app_eq_app (x y u v : string) :
  x +:+ y = u +:+ v ->
  exists w, (x = u +:+ w /\ v = w +:+ y) \/ (u = x +:+ w /\ y = w +:+ v).
Proof.
  revert u. induction x as [|c x IH]; intros u; simpl.
  - intros ->. exists u. now right.
  - destruct u as [|d u]; simpl.
    + intros <-. exists (String c x). now left.
    + intros [= <- H]. destruct (IH u H) as (w & [[-> ->]|[-> ->]]);
        exists w; [now left | now right].
Qed.

Lemma not_terminator_in_pattern (x y : string) (t : ascii) :
  string_forall (fun c => negb (terminator c)) (x +:+ String t y) = true ->
  terminator t = true -> False.
Proof.
  rewrite string_forall_app. simpl. intros H Ht. rewrite Ht in H.
  simpl in H. rewrite andb_false_r in H. discriminate.
Qed.

(** The end of a text that ends with a terminator: any piece at its end
    that is not empty ends with that terminator. *)
Lemma ends_at_terminator_tail (b w : string) :
  ends_at_terminator (b +:+ w) -> w <> "" ->
  exists w' t, w = w' +:+ String t "" /\ terminator t = true.
Proof.
  intros [H|(s' & t & H & Ht)] Hw.
  - destruct b; [simpl in H; contradiction | discriminate].
  - apply string_app_eq_app in H as (x & [[-> H]|[-> ->]]).
    + destruct x as [|c x]; simpl in H.
      * exists "", t. now split.
      * injection H as <- H. destruct x; [|discriminate].
        simpl in H. now elim Hw.
    + now exists x, t.
Qed.

(** An occurrence of a pattern that holds no terminator, at or after the
    start of a stretch the pattern does not occur in, lies after the
    terminator that ends the stretch. *)
Lemma occurrence_after_stretch (w s after pattern a : string) :
  starts_at_terminator after ->
  pattern <> "" ->
  string_forall (fun c => negb (terminator c)) pattern = true ->
  ~ occurs pattern s ->
  s +:+ after = w +:+ pattern +:+ a ->
  exists t w2, w = s +:+ String t w2 /\ after = String t w2 +:+ pattern +:+ a
               /\ terminator t = true.
Proof.
  intros Hafter Hne Hplain Hnot H.
  apply string_app_eq_app in H as (w2 & [[-> H]|[-> ->]]).
  - (* the occurrence starts inside the stretch *)
    exfalso. symmetry in H.
    apply string_app_eq_app in H as (w3 & [[-> ->]|[-> ->]]).
    + apply Hnot. now exists w, w3.
    + destruct w3 as [|t w3].
      * apply Hnot. exists w, "". now rewrite !string_app_nil_r.
      * destruct Hafter as [Hafter|(t' & s' & Hafter & Ht)]; [discriminate |].
        injection Hafter as <- _.
        now apply (not_terminator_in_pattern w2 w3 t).
  - destruct Hafter as [Hafter|(t & s' & Hafter & Ht)].
    + exfalso. destruct w2; [|discriminate]. destruct pattern; [now elim Hne | discriminate].
    + destruct w2 as [|c w2].
      * exfalso. destruct pattern as [|c pattern]; [now elim Hne |].
        simpl in Hafter. injection Hafter as <- _.
        now apply (not_terminator_in_pattern "" pattern c).
      * simpl in Hafter. injection Hafter as <- _. now exists c, w2.
Qed.

(** One step of the fold leaves a stretch between terminators alone when
    the pattern, which holds no terminator, does not occur in it: the
    step rewrites the text before the stretch or the text after it, and
    neither of them where the pattern does not occur. *)
Lemma replace_keeps_stretch (before s after pattern replacement : string) :
  ends_at_terminator before -> starts_at_terminator after ->
  pattern <> "" ->
  string_forall (fun c => negb (terminator c)) pattern = true ->
  ~ occurs pattern s ->
  exists before' after',
    replace (before +:+ s +:+ after) pattern replacement = before' +:+ s +:+ after'
    /\ ends_at_terminator before' /\ starts_at_terminator after'
    /\ (~ occurs pattern before -> before' = before)
    /\ (~ occurs pattern after -> after' = after).
Proof.
  intros Hbefore Hafter Hne Hplain Hnot.
  destruct (replace_first_occurrence (before +:+ s +:+ after) pattern replacement)
    as [(b & a & Hl & _ & ->)|[_ ->]];
    [|exists before, after; repeat split; assumption].
  set (subst := GetSubstitution pattern b a replacement).
  assert (Hin_after : forall w, b = before +:+ w ->
            s +:+ after = w +:+ pattern +:+ a ->
            exists after',
              b +:+ subst +:+ a = before +:+ s +:+ after'
              /\ starts_at_terminator after'
              /\ (~ occurs pattern after -> after' = after)).
  { intros w -> H.
    destruct (occurrence_after_stretch w s after pattern a Hafter Hne Hplain Hnot H)
      as (t & w2 & -> & Ha & Ht).
    exists (String t w2 +:+ subst +:+ a).
    split; [now rewrite !string_app_assoc | split].
    - right. now exists t, (w2 +:+ subst +:+ a).
    - intros Hno. elim Hno. now exists (String t w2), a. }
  apply string_app_eq_app in Hl as (w & [[Hb H]|[-> H]]).
  - (* the occurrence starts before the stretch *)
    apply string_app_eq_app in H as (w2 & [[Hp Hs]|[-> ->]]).
    + (* and reaches beyond the text before the stretch *)
      destruct w as [|c w].
      * rewrite string_app_nil_r in Hb. subst b. simpl in Hp. subst w2.
        destruct (Hin_after "") as (after' & Heq & Hstarts & Hsame);
          [now rewrite string_app_nil_r | exact Hs |].
        exists before, after'. repeat split; assumption.
      * exfalso. subst before.
        destruct (ends_at_terminator_tail b (String c w) Hbefore)
          as (w' & t & Hw & Ht); [discriminate |].
        rewrite Hp, Hw, string_app_assoc in Hplain.
        now apply (not_terminator_in_pattern w' w2 t).
    + (* and ends before it *)
      subst before.
      exists (b +:+ subst +:+ w2), after.
      split; [now rewrite !string_app_assoc | split; [|split; [exact Hafter | split]]].
      * destruct w2 as [|c w2].
        { exfalso. rewrite string_app_nil_r in Hbefore.
          destruct (ends_at_terminator_tail b pattern Hbefore Hne)
            as (w' & t & Hp & Ht).
          rewrite Hp in Hplain. now apply (not_terminator_in_pattern w' "" t). }
        rewrite <- string_app_assoc in Hbefore.
        destruct (ends_at_terminator_tail _ (String c w2) Hbefore)
          as (w' & t & Hw & Ht); [discriminate |].
        right. exists (b +:+ subst +:+ w'), t. split; [|exact Ht].
        now rewrite Hw, !string_app_assoc.
      * intros Hno. elim Hno. now exists b, w2.
      * reflexivity.
  - destruct (Hin_after w eq_refl H) as (after' & Heq & Hstarts & Hsame).
    exists before, after'. repeat split; assumption.
Qed.

(** The whole fold leaves such a stretch alone. *)
Lemma applyReplacements_keeps_stretch (s : string) : forall rs before after,
  (forall r, In r rs ->
     oldRef r <> ""
     /\ string_forall (fun c => negb (terminator c)) (oldRef r) = true
     /\ ~ occurs (oldRef r) s) ->
  ends_at_terminator before -> starts_at_terminator after ->
  exists before' after',
    applyReplacements rs (before +:+ s +:+ after) = before' +:+ s +:+ after'
    /\ ends_at_terminator before' /\ starts_at_terminator after'
    /\ ((forall r, In r rs -> ~ occurs (oldRef r) before) -> before' = before)
    /\ ((forall r, In r rs -> ~ occurs (oldRef r) after) -> after' = after).
Proof.
  unfold applyReplacements.
  induction rs as [|r rs IH]; intros before after Hrs Hbefore Hafter; simpl.
  - exists before, after. repeat split; assumption.
  - destruct (Hrs r (or_introl eq_refl)) as (Hne & Hplain & Hnot).
    destruct (replace_keeps_stretch before s after (oldRef r) (newRef r)
                Hbefore Hafter Hne Hplain Hnot)
      as (before1 & after1 & -> & Hb1 & Ha1 & Hsame_b & Hsame_a).
    destruct (IH before1 after1) as (before' & after' & -> & Hb' & Ha' & Hkeep_b & Hkeep_a);
      [intros r' Hr'; apply Hrs; now right | exact Hb1 | exact Ha1 |].
    exists before', after'.
    split; [reflexivity | split; [exact Hb' | split; [exact Ha' | split]]].
    + intros Hno. rewrite <- (Hsame_b (Hno r (or_introl eq_refl))).
      apply Hkeep_b. intros r' Hr'.
      rewrite (Hsame_b (Hno r (or_introl eq_refl))). apply Hno. now right.
    + intros Hno. rewrite <- (Hsame_a (Hno r (or_introl eq_refl))).
      apply Hkeep_a. intros r' Hr'.
      rewrite (Hsame_a (Hno r (or_introl eq_refl))). apply Hno. now right.
Qed.

(** The path of a collected pair is not empty and holds no terminator. *)
Lemma oldRef_plain p l rs r :
  replacements p l = Some rs -> In r rs ->
  oldRef r <> ""
  /\ string_forall (fun c => negb (terminator c)) (oldRef r) = true.
Proof.
  intros Hrs Hin.
  destruct (collect_matched _ _ _ _ _ _ Hrs Hin) as (j & m & Hm & Hold & _).
  apply match_here_shortest in Hm
    as (c & file & head & body & t & _ & Hcap & Hhead & _ & Hterm).
  rewrite Hold. unfold group1. rewrite Hcap. split.
  - destruct Hhead as [->| ->]; discriminate.
  - rewrite string_forall_app. apply andb_true_intro. split; [|exact Hterm].
    destruct Hhead as [->| ->]; reflexivity.
Qed.

Lemma find_first_not_occurs pattern s :
  find_first pattern s = None -> ~ occurs pattern s.
Proof.
  intros H (b & a & Hs). now apply (find_first_none pattern s H b a).
Qed.

(** C10 (amended).  The at sign of every reference the loop collects
    comes right after a code unit that is neither a double quote nor a
    slash: a path at the very start of the lockfile, or after an at sign
    that follows a double quote or a slash, yields no pair of its own.
    And the substitution leaves it alone unless a collected path occurs
    around it: any stretch of the lockfile that begins at the start of the
    text or right after a terminator, that ends at the end of the text or
    right before a terminator, and in which no collected [oldRef] occurs,
    stands in the result as it is, between what has become of the text
    before it and of the text after it; and the text before it (after it)
    is itself returned as it is when no collected [oldRef] occurs
    there. *)
Theorem reference_needs_plain_unit_before_at_sign
    (pathToPackageRoot lockfile : string) :
  (forall rs r,
      replacements pathToPackageRoot lockfile = Some rs -> In r rs ->
      exists pre c file t post,
        lockfile = pre +:+ String c (String at_sign (file +:+ oldRef r +:+ String t post))
        /\ (file = "" \/ file = "file:")
        /\ c <> dquote /\ c <> slash)
  /\ (forall rs before stretch after,
        replacements pathToPackageRoot lockfile = Some rs ->
        lockfile = before +:+ stretch +:+ after ->
        ends_at_terminator before -> starts_at_terminator after ->
        (forall r, In r rs -> ~ occurs (oldRef r) stretch) ->
        exists before' after',
          rebaseLockfile pathToPackageRoot lockfile
          = Some (before' +:+ stretch +:+ after')
          /\ ends_at_terminator before' /\ starts_at_terminator after'
          /\ ((forall r, In r rs -> ~ occurs (oldRef r) before) -> before' = before)
          /\ ((forall r, In r rs -> ~ occurs (oldRef r) after) -> after' = after)).
Proof.
  split.
  - intros rs r Hrs Hin.
    destruct (replacement_origin _ _ _ _ Hrs Hin)
      as (pre & c & file & head & body & t & post
          & Hl & _ & _ & Hq & Hs & Hfile & _).
    now exists pre, c, file, t, post.
  - intros rs before stretch after Hrs -> Hbefore Hafter Hnot.
    unfold rebaseLockfile. rewrite Hrs.
    destruct (applyReplacements_keeps_stretch stretch rs before after)
      as (before' & after' & -> & H); [|exact Hbefore | exact Hafter |].
    + intros r Hr. destruct (oldRef_plain _ _ _ _ Hrs Hr) as [Hne Hplain].
      split; [exact Hne | split; [exact Hplain | now apply Hnot]].
    + now exists before', after'.
Qed.

End RebaseStretch.

(** ** The listing *)

Module ListingFacts.

Import Yarn2.

(** *** Which failures of the listing are passed on *)

Lemma failedBy_fold lines : forall b,
  foldl (fun (failed : bool) (error : string) =>
           if failed then true
           else negb (string_isEmpty error)
                && negb (existsb (fun ignoredError =>
                                    string_startsWith error
                                      ("npm ERR! " +:+ npmError ignoredError))
                                 ignoredYarnErrors))
        b lines
  = b || existsb (fun error => negb (string_isEmpty error)) lines.
Proof.
  induction lines as [|x lines IH]; intros b; simpl.
  - now rewrite orb_false_r.
  - rewrite IH. destruct b; simpl; [reflexivity |].
    now rewrite andb_true_r.
Qed.

Lemma split_on_LF_blank s :
  existsb (fun error => negb (string_isEmpty error)) (split_on LF s)
  = negb (string_forall (fun c => Ascii.eqb c LF) s).
Proof.
  induction s as [|c s IH]; simpl; [reflexivity |].
  destruct (Ascii.eqb c LF) eqn:E; simpl; [exact IH |].
  destruct (split_on LF s); reflexivity.
Qed.

(** stderr is critical as soon as it holds anything but line feeds. *)
Lemma failedBy_spec stderr :
  failedBy stderr = negb (string_forall (fun c => Ascii.eqb c LF) stderr).
Proof. unfold failedBy. rewrite failedBy_fold. simpl. apply split_on_LF_blank. Qed.

(** X6.  A failed listing is passed on as it is, unless it is a SpawnError
    whose stdout is not empty and whose stderr holds nothing but line
    feeds: then, and only then, the chain goes on with that stdout.  (The
    list of ignored errors being empty, any other code unit on stderr is
    critical.) *)
Theorem failed_listing_is_passed_on_unless_benign
    (splitLines : string -> list string) (safeJsonParse : string -> JsValue)
    (err : Reason) :
  getProdDependencies splitLines safeJsonParse (Rejected err)
  = match err with
    | SpawnError stdout stderr =>
        if string_forall (fun c => Ascii.eqb c LF) stderr
           && negb (String.eqb stdout "")
        then parseOutput splitLines safeJsonParse stdout
        else Rejected err
    | _ => Rejected err
    end.
Proof.
  unfold getProdDependencies, recover.
  destruct err as [stdout stderr| |]; try reflexivity.
  rewrite failedBy_spec, negb_involutive. unfold string_isEmpty.
  now destruct (string_forall _ stderr && negb (String.eqb stdout "")).
Qed.

(** *** No line that counts *)

(** X7.  When no line of the output counts (all are empty, not JSON, or
    parse to an empty value), the listing is fulfilled with the graph
    without dependencies. *)
Theorem listing_without_records_is_the_empty_graph
    (splitLines : string -> list string) (safeJsonParse : string -> JsValue)
    (stdout : string) :
  (forall line, In line (splitLines stdout) -> counts safeJsonParse line = false) ->
  getProdDependencies splitLines safeJsonParse (Fulfilled stdout)
  = Fulfilled (mkGraph [] ∅).
Proof.
  intros H. unfold getProdDependencies, parseOutput, parsedValuesOf.
  assert (E : List.filter (fun line => negb (isEmpty line))
                (map safeJsonParse (splitLines stdout)) = []).
  { induction (splitLines stdout) as [|l ls IH]; simpl; [reflexivity |].
    pose proof (H l (or_introl eq_refl)) as Hl. unfold counts in Hl.
    rewrite Hl. apply IH. intros line Hin. apply H. now right. }
  rewrite E. reflexivity.
Qed.

(** *** Folds *)

Lemma foldM_app {A B} (f : A -> B -> Result A) l1 l2 : forall acc,
  foldM f acc (l1 ++ l2) = bind (foldM f acc l1) (fun a => foldM f a l2).
Proof.
  induction l1 as [|x l1 IH]; intros acc; simpl; [reflexivity |].
  destruct (f acc x) as [a| |]; simpl; [apply IH | reflexivity | reflexivity].
Qed.

Lemma foldM_not_TypeError {A B} (f : A -> B -> Result A) l : forall acc,
  (forall a x, In x l -> f a x <> TypeError) -> foldM f acc l <> TypeError.
Proof.
  induction l as [|x l IH]; intros acc Hf; simpl; [easy |].
  pose proof (Hf acc x (or_introl eq_refl)) as Hx.
  destruct (f acc x) as [a| |]; simpl; [|easy | easy].
  apply IH. intros a' y Hy. apply Hf. now right.
Qed.

(** Every entry of a fold that ends well is read well. *)
Lemma convertValues_step versions l1 data l2 path g convert :
  foldM (convertEntry convert versions path) ∅ (l1 ++ data :: l2) = Normal g ->
  exists obj locator name key children deps,
    foldM (convertEntry convert versions path) ∅ l1 = Normal obj
    /\ getProp data path = Normal locator
    /\ moduleName locator = Normal name
    /\ ToString locator = Normal key
    /\ getProp data "children" = Normal children
    /\ (truthy children = true ->
        exists Dependencies,
          getProp children "Dependencies" = Normal Dependencies
          /\ convert Dependencies = Normal deps)
    /\ (truthy children = false -> deps = ∅)
    /\ foldM (convertEntry convert versions path)
             (assignNode obj name (mkNode (lookupVersion versions key) deps)) l2
       = Normal g.
Proof.
  rewrite foldM_app. intros H.
  apply bind_Normal in H as (obj & Hobj & H). simpl in H.
  apply bind_Normal in H as (obj' & Hstep & H).
  apply convertEntry_Normal in Hstep
    as (locator & name & key & children & deps & H1 & H2 & H3 & H4 & H5 & H6 & ->).
  now exists obj, locator, name, key, children, deps.
Qed.

(** The entry a node stands for, when the entry in question is the last
    of the values. *)
Lemma last_entry_is_the_last (earlier earlier' later' : list JsValue)
    (item data : JsValue) (P : JsValue -> Prop) :
  (earlier ++ [item])%list = (earlier' ++ data :: later')%list ->
  P item -> (forall data', In data' later' -> ~ P data') ->
  data = item.
Proof.
  intros Heq Hitem Hlater.
  destruct later' as [|x later'] using rev_ind.
  - now apply app_inj_tail in Heq as [_ ->].
  - exfalso. clear IHlater'.
    replace (earlier' ++ data :: later' ++ [x])%list
      with ((earlier' ++ data :: later') ++ [x])%list in Heq
      by (now rewrite <- app_assoc).
    apply app_inj_tail in Heq as [_ ->].
    apply (Hlater x); [apply in_elt | exact Hitem].
Qed.

(** *** The keys of the graph *)

(** X8.  In a graph that [buildGraph] answers with, [problems] is empty
    and the keys of the first level are the module names of the parsed
    values, [__proto__] left out: every parsed value has a module name and
    is filed under it unless the name is [__proto__], and every key is the
    name of a parsed value and is not [__proto__]. *)
Theorem graph_keys_are_the_module_names
    (parsedValues : list JsValue) (g : DependencyGraph) :
  buildGraph parsedValues = Normal g ->
  problems g = []
  /\ (forall item, In item parsedValues ->
        exists value name,
          getProp item "value" = Normal value
          /\ moduleName value = Normal name
          /\ (name <> "__proto__" -> is_Some (graph_dependencies g !! name)))
  /\ (forall name, is_Some (graph_dependencies g !! name) ->
        name <> "__proto__"
        /\ exists item value,
             In item parsedValues
             /\ getProp item "value" = Normal value
             /\ moduleName value = Normal name).
Proof.
  unfold buildGraph. intros H.
  apply bind_Normal in H as (versions & Hidx & H).
  apply bind_Normal in H as (deps & Hconv & [= <-]). simpl.
  split; [reflexivity | split].
  - intros item Hin.
    destruct (convertValues_files _ _ _ _ _ Hconv) as [_ Hfiled].
    pose proof Hin as Hin'. apply in_split in Hin' as (l1 & l2 & ->).
    simpl in Hconv.
    apply convertValues_step in Hconv
      as (obj & value & name & key & children & d & _ & Hv & Hn & _).
    exists value, name. split; [exact Hv | split; [exact Hn |]].
    intros Hproto. apply (Hfiled item); [exact Hin | now exists value | exact Hproto].
  - intros name [node Hnode].
    apply convertValues_converted in Hconv. inversion Hconv as [? ? ? Hnodes _]; subst.
    destruct (Hnodes name node Hnode)
      as (Hproto & earlier & item & later & value & key & children
          & Hsplit & _ & Hv & Hname & _).
    split; [exact Hproto |]. exists item, value. simpl in Hsplit. rewrite Hsplit.
    split; [apply in_elt | now split].
Qed.

(** *** The last record *)

(** X9.  The last parsed value decides the node of its name, whatever
    came before under that name, and the node holds the [children.Version]
    of that last value; this for every name and every printed [value] but
    [__proto__], under which nothing is filed. *)
Theorem last_record_decides_its_node
    (earlier : list JsValue) (item : JsValue) (g : DependencyGraph) :
  buildGraph (earlier ++ [item]) = Normal g ->
  exists value name key children Version,
    getProp item "value" = Normal value
    /\ moduleName value = Normal name
    /\ ToString value = Normal key
    /\ getProp item "children" = Normal children
    /\ getProp children "Version" = Normal Version
    /\ (name <> "__proto__" -> key <> "__proto__" ->
        exists node,
          graph_dependencies g !! name = Some node
          /\ version node = Data Version)
    /\ graph_dependencies g !! "__proto__" = None.
Proof.
  unfold buildGraph. intros H.
  apply bind_Normal in H as (versions & Hidx & H).
  apply bind_Normal in H as (deps & Hconv & [= <-]). simpl.
  destruct (convertValues_files _ _ _ _ _ Hconv) as [Hnone Hfiled].
  pose proof Hconv as Hstep. simpl in Hstep.
  apply convertValues_step in Hstep
    as (obj & value & name & key & children0 & d & _ & Hv & Hn & Hk & _).
  pose proof Hidx as Hlast. unfold indexPass in Hlast. rewrite foldM_app in Hlast.
  apply bind_Normal in Hlast as (acc & _ & Hlast). simpl in Hlast.
  apply bind_Normal in Hlast as (acc' & Hlast & _).
  apply indexEntry_Normal in Hlast
    as (value' & children & Version & key' & Hv' & _ & Hch & HV & _).
  clear value' key' Hv'.
  assert (Hkeyed : keyed item key) by now exists value.
  assert (Hnamed : named "value" item name) by now exists value.
  exists value, name, key, children, Version.
  repeat split; try assumption.
  intros Hname Hkey.
  destruct (Hfiled item name) as [node Hnode];
    [apply in_elt | exact Hnamed | exact Hname |].
  exists node. split; [exact Hnode |].
  apply convertValues_converted in Hconv.
  inversion Hconv as [? ? ? Hnodes _]; subst.
  destruct (Hnodes name node Hnode)
    as (_ & earlier' & data & later' & locator & key' & children'
        & Hsplit & Hlater & Hloc & _ & Hkey' & Hversion & _).
  simpl in Hsplit.
  assert (data = item) as ->
    by (apply (last_entry_is_the_last earlier earlier' later' item data
                 (fun d => named "value" d name) Hsplit Hnamed Hlater)).
  rewrite Hv in Hloc. injection Hloc as <-.
  rewrite Hk in Hkey'. injection Hkey' as <-.
  rewrite Hversion.
  destruct (lookupVersion_last _ versions earlier item [] key Hidx eq_refl Hkeyed)
    as (children1 & Version1 & Hch1 & HV1 & Hlook);
    [intros ? [] | now left |].
  rewrite Hch in Hch1. injection Hch1 as <-.
  rewrite HV in HV1. injection HV1 as <-. exact Hlook.
Qed.

(** *** Unscoped names *)

(** X11.  A locator that does not start with an at sign stands for the
    module named by its text before the first at sign (by the whole
    locator when it has none), and its entry is filed under that name in
    the mapping [convertValues] answers with; but for the name
    [__proto__], under which the mapping has nothing. *)
Theorem unscoped_locator_is_filed_under_text_before_at_sign (s : string) :
  strip_prefix "@" s = None ->
  exists name rest,
    s = name +:+ rest
    /\ string_forall not_at name = true
    /\ (rest = "" \/ exists r, rest = String at_sign r)
    /\ moduleName (JStr s) = Normal name
    /\ forall fuel versions values path g data,
         convertValues fuel versions values path = Normal g ->
         In data (collectionElements values) ->
         getProp data path = Normal (JStr s) ->
         if String.eqb name "__proto__" then g !! name = None
         else is_Some (g !! name).
Proof.
  intros Hs. destruct (split_at_first_at s) as (name & rest & -> & Hname & Hrest).
  exists name, rest.
  assert (Hmod : moduleName (JStr (name +:+ rest)) = Normal name).
  { unfold moduleName, split, startsWith, toString, baseToString, bind.
    rewrite Hs.
    destruct Hrest as [->|[r ->]].
    - rewrite string_app_nil_r, (split_on_no_sep at_sign name Hname). reflexivity.
    - rewrite (split_on_first at_sign name r Hname). reflexivity. }
  repeat split; try assumption.
  intros fuel versions values path g data Hconv Hin Hloc.
  destruct (convertValues_files _ _ _ _ _ Hconv) as [Hnone Hfiled].
  destruct (String.eqb_spec name "__proto__") as [->|Hne]; [exact Hnone |].
  apply (Hfiled data); [exact Hin | | exact Hne].
  exists (JStr (name +:+ rest)). now split.
Qed.

(** *** Records of the documented shape never throw *)

Lemma locatorOk_prints path props :
  locatorOk (assoc path props) ->
  exists locator name key,
    getProp (JObj props) path = Normal locator
    /\ moduleName locator = Normal name
    /\ ToString locator = Normal key.
Proof.
  intros [H|[s H]]; simpl; rewrite H; simpl.
  - now exists JUndefined, "", "undefined".
  - exists (JStr s). unfold moduleName, split, startsWith, toString, baseToString, bind.
    eexists; eexists; split; [reflexivity | split; reflexivity].
Qed.

Lemma convertValues_entries_ok versions : forall fuel l path,
  (forall data, In data l -> entryOk path data) ->
  convertValues fuel versions (JArr l) path <> TypeError.
Proof.
  induction fuel as [|fuel IH]; intros l path Hl; simpl; [easy |].
  apply foldM_not_TypeError. intros obj data Hdata.
  specialize (Hl data Hdata).
  unfold convertEntry.
  inversion Hl as [p props Hloc Hch|p props cprops Hloc Hch Hdeps]; subst;
    destruct (locatorOk_prints _ _ Hloc) as (locator & name & key & Hv & Hn & Hk);
    rewrite Hv; simpl; rewrite Hn; simpl; rewrite Hk; simpl; rewrite Hch; simpl;
    [easy |].
  inversion Hdeps as [Hnone|l' Hl' Hsome]; simpl.
  - destruct fuel; simpl; easy.
  - pose proof (IH l' "locator" Hl') as Hrec.
    destruct (convertValues fuel versions (JArr l') "locator"); easy.
Qed.

Lemma buildGraph_records_ok (parsedValues : list JsValue) :
  (forall item, In item parsedValues -> recordOk item) ->
  exists g, buildGraph parsedValues = Normal g.
Proof.
  intros Hok.
  assert (Hthrow : buildGraph parsedValues <> TypeError).
  { unfold buildGraph.
    assert (Hidx : indexPass parsedValues <> TypeError).
    { apply foldM_not_TypeError. intros versions item Hitem.
      destruct (Hok item Hitem) as (Hentry & props & cprops & -> & Hch).
      assert (Hloc : locatorOk (assoc "value" props))
        by (inversion Hentry; assumption).
      destruct (locatorOk_prints _ _ Hloc) as (locator & name & key & Hv & _ & Hk).
      unfold indexEntry. rewrite Hv. simpl. rewrite Hch. simpl. now rewrite Hk. }
    destruct (indexPass parsedValues) as [versions| |]; cbn [bind]; [|easy | easy].
    pose proof (convertValues_entries_ok versions (S (depth (JArr parsedValues)))
                  parsedValues "value" (fun item Hin => proj1 (Hok item Hin))) as Hc.
    destruct (convertValues _ versions (JArr parsedValues) "value"); easy. }
  pose proof (buildGraph_not_OutOfFuel parsedValues) as Hfuel.
  destruct (buildGraph parsedValues) as [g| |]; [now exists g | easy | easy].
Qed.

(** X10.  When every line that counts parses to a record of the
    documented shape (an object with its [children], locators that are
    strings or missing, dependencies that are arrays of such entries, to
    any depth), the listing is fulfilled with a graph: nothing throws. *)
Theorem records_of_the_documented_shape_give_a_graph
    (splitLines : string -> list string) (safeJsonParse : string -> JsValue)
    (stdout : string) :
  (forall line, In line (splitLines stdout) ->
     counts safeJsonParse line = true -> recordOk (safeJsonParse line)) ->
  exists g,
    getProdDependencies splitLines safeJsonParse (Fulfilled stdout) = Fulfilled g.
Proof.
  intros Hok. unfold getProdDependencies, parseOutput.
  destruct (buildGraph_records_ok (parsedValuesOf splitLines safeJsonParse stdout))
    as [g ->]; [|now exists g].
  intros item Hitem. unfold parsedValuesOf in Hitem.
  apply filter_In in Hitem as [Hitem Hcounts].
  apply in_map_iff in Hitem as (line & <- & Hline).
  now apply Hok.
Qed.

End ListingFacts.

(** ** install, prune and runScripts *)

Module CommandFacts.

Import Yarn2.

(** *** The arguments of yarn install *)


(** *** install and prune *)

Section Commands.

Variable spawnProcess : string -> list string -> string -> Promise string.
Variable platform : string.

(** X13.  [install] throws, before any process is run, exactly when the
    options are undefined or null, or the concurrency is truthy and cannot
    be printed. *)
Theorem install_throws_iff_options_unreadable (cwd : string) (packagerOptions : JsValue) :
  install spawnProcess platform cwd packagerOptions = TypeError
  <-> packagerOptions = JUndefined \/ packagerOptions = JNull
      \/ exists networkConcurrency,
           getProp packagerOptions "networkConcurrency" = Normal networkConcurrency
           /\ truthy networkConcurrency = true
           /\ ToString networkConcurrency = TypeError.
Proof.
  unfold install, installArgs.
  destruct packagerOptions as [| |b|n|s|l|props]; simpl;
    try (split; [intros _; auto | reflexivity]);
    try (split; [discriminate | intros [H|[H|(nc & H & Ht & _)]];
                                  [discriminate H | discriminate H |
                                   injection H as <-; discriminate Ht]]).
  set (nc := default JUndefined (assoc "networkConcurrency" props)).
  destruct (truthy nc) eqn:Tnc.
  - destruct (ToString nc) as [printed| |] eqn:Hp; simpl.
    + split; [discriminate |].
      intros [H|[H|(nc' & H & _ & Hp')]]; try discriminate H.
      injection H as <-. congruence.
    + split; [intros _ | reflexivity]. right. right. now exists nc.
    + now elim (ToString_not_OutOfFuel nc).
  - simpl. split; [discriminate |].
    intros [H|[H|(nc' & H & Ht & _)]]; try discriminate H.
    injection H as <-. congruence.
Qed.

(** X14.  When [install] answers, [prune] answers the same; the promise
    is fulfilled (with undefined) exactly when the process is, it is
    rejected with the very error of the process, and the console gets one
    line, the stdout of a SpawnError, exactly when that stdout is not
    empty. *)
Theorem install_passes_the_failure_on (cwd : string) (packagerOptions : JsValue)
    (logged : list string) (promise : Promise unit) :
  install spawnProcess platform cwd packagerOptions = Normal (logged, promise) ->
  exists args,
    installArgs packagerOptions = Normal args
    /\ prune spawnProcess platform cwd packagerOptions = Normal (logged, promise)
    /\ (promise = Fulfilled tt
        <-> exists stdout,
              spawnProcess (command platform) args cwd = Fulfilled stdout)
    /\ (forall err, promise = Rejected err
                    <-> spawnProcess (command platform) args cwd = Rejected err)
    /\ (forall line, In line logged
                     <-> line <> ""
                         /\ exists stderr,
                              spawnProcess (command platform) args cwd
                              = Rejected (SpawnError line stderr)).
Proof.
  unfold prune, install. intros H.
  apply bind_Normal in H as (args & Hargs & H). rewrite Hargs. simpl.
  exists args. split; [reflexivity | split; [now rewrite H |]].
  injection H as H.
  destruct (spawnProcess (command platform) args cwd) as [out|err|];
    injection H as <- <-.
  - split; [split; [eauto | reflexivity] |].
    split; [intros err; split; discriminate |].
    intros line. split; [intros [] | intros (_ & stderr & H); discriminate H].
  - split; [split; [discriminate | intros [out H]; discriminate H] |].
    split; [intros err'; split; intros [= ->]; reflexivity |].
    intros line. destruct err as [stdout stderr| |]; simpl.
    + unfold string_isEmpty. destruct (String.eqb_spec stdout "") as [->|Hne].
      * split; [intros [] | intros (Hl & se & [= <- _]); now elim Hl].
      * split.
        -- intros [<-|[]]. split; [exact Hne | now exists stderr].
        -- intros (_ & se & [= <- _]). now left.
    + split; [intros [] | intros (_ & se & H); discriminate H].
    + split; [intros [] | intros (_ & se & H); discriminate H].
  - split; [split; [discriminate | intros [out H]; discriminate H] |].
    split; [intros err; split; discriminate |].
    intros line. split; [intros [] | intros (_ & stderr & H); discriminate H].
Qed.

(** *** runScripts *)

(** X15.  [runScripts] runs the scripts one after the other up to the
    first that fails: the scripts after it are not run, and the promise is
    rejected with the error of the failing one. *)
Theorem runScripts_stops_at_the_first_failure
    (cwd : string) (before : list string) (failing : string)
    (after : list string) (err : Reason) :
  (forall scriptName, In scriptName before ->
     exists stdout,
       spawnProcess (command platform) ["run"; scriptName] cwd = Fulfilled stdout) ->
  spawnProcess (command platform) ["run"; failing] cwd = Rejected err ->
  runScripts spawnProcess platform cwd (before ++ failing :: after)
  = (map (fun scriptName => ["run"; scriptName]) (before ++ [failing]),
     Rejected err).
Proof.
  intros Hbefore Hfail. unfold runScripts.
  induction before as [|s before IH]; simpl.
  - now rewrite Hfail.
  - destruct (Hbefore s (or_introl eq_refl)) as [out ->].
    rewrite IH; [reflexivity |]. intros s' Hs'. apply Hbefore. now right.
Qed.

(** X16.  When every script succeeds, [runScripts] runs them all, in the
    order given, each as [run <name>], and is fulfilled with undefined. *)
Theorem runScripts_runs_every_script_in_order
    (cwd : string) (scriptNames : list string) :
  (forall scriptName, In scriptName scriptNames ->
     exists stdout,
       spawnProcess (command platform) ["run"; scriptName] cwd = Fulfilled stdout) ->
  runScripts spawnProcess platform cwd scriptNames
  = (map (fun scriptName => ["run"; scriptName]) scriptNames, Fulfilled tt).
Proof.
  intros Hall. unfold runScripts.
  induction scriptNames as [|s scriptNames IH]; simpl; [reflexivity |].
  destruct (Hall s (or_introl eq_refl)) as [out ->].
  rewrite IH; [reflexivity |]. intros s' Hs'. apply Hall. now right.
Qed.

End Commands.

End CommandFacts.

(** ** The further properties on the samples *)

Module MoreExamples.

Import Yarn2 Samples MoreSamples RebaseScan RebaseStretch ListingFacts CommandFacts.

Lemma oldRef_stops_at_first_terminator_witness :
  string_forall (fun c => dot c && negb (terminator c)) "../local-dep" = true.
Proof.
  apply (oldRef_stops_at_first_terminator
           "packages/svc" lockfile_with_reference
           [mkReplacement "../local-dep" "packages/svc/../local-dep"]
           (mkReplacement "../local-dep" "packages/svc/../local-dep")).
  - vm_compute; reflexivity.
  - left; reflexivity.
Defined.

Lemma newRef_has_no_backslash_witness :
  string_forall (fun c => negb (Ascii.eqb c backslash)) "packages/svc/../local-dep"
  = true
  /\ String.length "packages/svc/../local-dep"
     = String.length "packages\svc" + 1 + String.length "../local-dep".
Proof.
  apply (newRef_has_no_backslash
           "packages\svc" lockfile_with_reference
           [mkReplacement "../local-dep" "packages/svc/../local-dep"]
           (mkReplacement "../local-dep" "packages/svc/../local-dep")).
  - vm_compute; reflexivity.
  - left; reflexivity.
Defined.

Lemma single_reference_is_rebased_in_place_witness :
  exists before after,
    lockfile_with_reference = before +:+ "../local-dep" +:+ after
    /\ (forall b a, lockfile_with_reference = b +:+ "../local-dep" +:+ a ->
                    String.length before <= String.length b)
    /\ rebaseLockfile "packages/svc" lockfile_with_reference
       = Some (before +:+ "packages/svc/../local-dep" +:+ after).
Proof.
  apply (single_reference_is_rebased_in_place
           "packages/svc" lockfile_with_reference
           (mkReplacement "../local-dep" "packages/svc/../local-dep")).
  - vm_compute; reflexivity.
  - vm_compute; reflexivity.
Defined.

Lemma listing_without_records_is_the_empty_graph_witness :
  getProdDependencies sample_splitLines sample_safeJsonParse
    (Fulfilled "yarn: not json")
  = Fulfilled (mkGraph [] ∅).
Proof.
  apply (listing_without_records_is_the_empty_graph
           sample_splitLines sample_safeJsonParse "yarn: not json").
  intros line [<-|[]]. vm_compute; reflexivity.
Defined.

Lemma graph_keys_are_the_module_names_witness :
  exists g,
    buildGraph [record_scoped; record_plain] = Normal g
    /\ problems g = []
    /\ is_Some (graph_dependencies g !! "@scope/name")
    /\ is_Some (graph_dependencies g !! "a").
Proof.
  eexists. split; [vm_compute; reflexivity |].
  destruct (graph_keys_are_the_module_names [record_scoped; record_plain] _
              ltac:(vm_compute; reflexivity)) as (Hp & Hin & _).
  split; [exact Hp | split].
  - destruct (Hin record_scoped ltac:(left; reflexivity))
      as (value & name & Hv & Hn & Hk).
    injection Hv as <-. injection Hn as <-. apply Hk. discriminate.
  - destruct (Hin record_plain ltac:(right; left; reflexivity))
      as (value & name & Hv & Hn & Hk).
    injection Hv as <-. injection Hn as <-. apply Hk. discriminate.
Defined.

Lemma last_record_decides_its_node_witness :
  exists g node,
    buildGraph ([record_scoped] ++ [record_plain]) = Normal g
    /\ graph_dependencies g !! "a" = Some node
    /\ version node = Data (JStr "1.0.1").
Proof.
  eexists.
  destruct (last_record_decides_its_node [record_scoped] record_plain _
              ltac:(vm_compute; reflexivity))
    as (value & name & key & children & Version
        & Hv & Hn & Hk & Hc & HV & Hnode & _).
  injection Hv as <-. injection Hn as <-. injection Hk as <-.
  injection Hc as <-. injection HV as <-.
  destruct Hnode as (node & Hnode & Hver); [discriminate | discriminate |].
  exists node. split; [vm_compute; reflexivity | split; [exact Hnode | exact Hver]].
Defined.

Lemma records_of_the_documented_shape_give_a_graph_witness :
  exists g,
    getProdDependencies sample_splitLines sample_safeJsonParse (Fulfilled line_plain)
    = Fulfilled g.
Proof.
  apply (records_of_the_documented_shape_give_a_graph
           sample_splitLines sample_safeJsonParse line_plain).
  intros line [<-|[]] _. vm_compute. split.
  - apply (entryOk_node "value" _ [("Version", JStr "1.0.1")]).
    + right. now exists "a@npm:1.0.1".
    + reflexivity.
    + apply dependenciesOk_missing.
  - eexists; eexists; split; reflexivity.
Defined.

Lemma unscoped_locator_is_filed_under_text_before_at_sign_witness :
  exists name g,
    moduleName (JStr "a@npm:1.0.1") = Normal name
    /\ buildGraph [record_scoped; record_plain] = Normal g
    /\ if String.eqb name "__proto__" then graph_dependencies g !! name = None
       else is_Some (graph_dependencies g !! name).
Proof.
  destruct (unscoped_locator_is_filed_under_text_before_at_sign "a@npm:1.0.1" eq_refl)
    as (name & rest & _ & _ & _ & Hmod & Hfiled).
  exists name. eexists.
  split; [exact Hmod | split; [vm_compute; reflexivity |]].
  apply (Hfiled 4 (mkIndex {[ "@scope/name@npm:1.0.0" := JStr "1.0.0";
                              "a@npm:1.0.1" := JStr "1.0.1" ]} DefaultPrototype)
           (JArr [record_scoped; record_plain]) "value" _ record_plain).
  - vm_compute; reflexivity.
  - right; left; reflexivity.
  - reflexivity.
Defined.

(** The quoted reference of [lockfile_mixed] yields no pair and stands in
    the result where it stood, while the other reference is rebased. *)
Lemma reference_needs_plain_unit_before_at_sign_witness :
  replacements "r" lockfile_mixed = Some [mkReplacement "../y" "r/../y"]
  /\ exists after',
       rebaseLockfile "r" lockfile_mixed
       = Some (String dquote "" +:+ "@file:../x" +:+ after').
Proof.
  split; [vm_compute; reflexivity |].
  destruct (proj2 (reference_needs_plain_unit_before_at_sign "r" lockfile_mixed)
              [mkReplacement "../y" "r/../y"]
              (String dquote "") "@file:../x"
              (String dquote ": pkg@file:../y:"))
    as (before' & after' & Hout & _ & _ & Hbefore & _).
  - vm_compute; reflexivity.
  - reflexivity.
  - right. exists "", dquote. now split.
  - right. exists dquote, ": pkg@file:../y:". now split.
  - intros r [<-|[]]. now apply find_first_not_occurs.
  - exists after'. rewrite Hout, Hbefore; [reflexivity |].
    intros r [<-|[]]. now apply find_first_not_occurs.
Defined.


Lemma install_passes_the_failure_on_witness :
  prune sample_spawnProcess "linux" "/srv" sample_options
  = Normal (["no lockfile"], Rejected (SpawnError "no lockfile" "error")).
Proof.
  destruct (install_passes_the_failure_on sample_spawnProcess "linux" "/srv"
              sample_options ["no lockfile"]
              (Rejected (SpawnError "no lockfile" "error")) eq_refl)
    as (args & _ & Hprune & _).
  exact Hprune.
Defined.

Lemma runScripts_stops_at_the_first_failure_witness :
  runScripts sample_spawnProcess "win32" "/srv" ["lint"; "build"; "test"; "deploy"]
  = ([["run"; "lint"]; ["run"; "build"]; ["run"; "test"]],
     Rejected (SpawnError "1 failing" "")).
Proof.
  apply (runScripts_stops_at_the_first_failure sample_spawnProcess "win32" "/srv"
           ["lint"; "build"] "test" ["deploy"] (SpawnError "1 failing" "")).
  - intros scriptName [<-|[<-|[]]]; now exists "".
  - reflexivity.
Defined.

Lemma runScripts_runs_every_script_in_order_witness :
  runScripts sample_spawnProcess "linux" "/srv" ["lint"; "build"]
  = ([["run"; "lint"]; ["run"; "build"]], Fulfilled tt).
Proof.
  apply (runScripts_runs_every_script_in_order sample_spawnProcess "linux" "/srv"
           ["lint"; "build"]).
  intros scriptName [<-|[<-|[]]]; now exists "".
Defined.

End MoreExamples.
